(** * Samudra Rakshak backend: telemetry store, liveness sweep, reads

    A shallow embedding of [samudra_backend.py]: the three module-level
    history deques, the three "current" dictionaries, the [system_status]
    dictionary, the POST endpoints that ingest a payload, the GET endpoints
    that read it back and the body of the background liveness loop. *)

From Stdlib Require Import ZArith String List Bool Lia.
From stdpp Require Import base list.
Import ListNotations.

Local Open Scope string_scope.
Local Open Scope list_scope.
Local Open Scope Z_scope.

(** ** JSON values and Python dictionaries *)

(** A naive [datetime], counted in microseconds (the resolution of
    [datetime.now()]). *)
Definition datetime := Z.

(** What [request.get_json()] can hand back.  [JFloat] keeps a binary64 by
    its bit pattern; [JIso t] is the [str] that [datetime.isoformat()]
    produces for the instant [t] ([datetime.fromisoformat] reads it back
    exactly, so the model keeps the instant rather than its characters).
    A [str], as a value or as a key, is kept as its bytes in UTF-8; a
    surrogate code point, which a JSON escape such as [\ud800] can put in
    a [str], takes the three bytes it would have as any other code point
    of its range ([ED A0 80] to [ED BF BF]). *)
#[local] Set Warnings "-register-all".
Inductive json : Type :=
| JNull
| JBool (b : bool)
| JInt (n : Z)
| JFloat (bits : Z)
| JStr (s : string)
| JIso (t : datetime)
| JArr (xs : list json)
| JObj (kvs : list (string * json)).
#[local] Set Warnings "register-all".

(** The exceptions the handlers can meet. *)
Inductive exn : Type :=
| TypeError | ValueError | KeyError | OverflowError | UnicodeEncodeError.

Inductive result (A : Type) : Type :=
| Return (a : A)
| Raise (e : exn).
Arguments Return {A} a.
Arguments Raise {A} e.

(** [d.get(k)] on the items of a dict: the value, or nothing. *)
Fixpoint dict_get (k : string) (kvs : list (string * json)) : option json :=
  match kvs with
  | [] => None
  | (k', v) :: rest => if String.eqb k k' then Some v else dict_get k rest
  end.

(** [d[k] = v] on the items of a dict: an existing key keeps its place, a
    new key goes last. *)
Fixpoint dict_set (k : string) (v : json) (kvs : list (string * json))
  : list (string * json) :=
  match kvs with
  | [] => [(k, v)]
  | (k', v') :: rest =>
      if String.eqb k k' then (k', v) :: rest else (k', v') :: dict_set k v rest
  end.

Definition is_mapping (j : json) : bool :=
  match j with JObj _ => true | _ => false end.

(** [data[k] = v]: only a dict takes a string key; [None], numbers and
    strings do not support item assignment and a list wants an integer
    index, all of them a [TypeError]. *)
Definition setitem (data : json) (k : string) (v : json) : result json :=
  match data with
  | JObj kvs => Return (JObj (dict_set k v kvs))
  | _ => Raise TypeError
  end.

(** [data[k]] for a string key [k]. *)
Definition getitem (data : json) (k : string) : result json :=
  match data with
  | JObj kvs => match dict_get k kvs with
                | Some v => Return v
                | None => Raise KeyError
                end
  | _ => Raise TypeError
  end.

(** [data.get(k)] and [data.get(k, default)] on a dict. *)
Definition get_default (data : json) (k : string) (default : json) : json :=
  match data with
  | JObj kvs => match dict_get k kvs with Some v => v | None => default end
  | _ => default
  end.

Definition get (data : json) (k : string) : json := get_default data k JNull.

(** [format(v, '.4f')] succeeds on numbers only.  [bool] formats as an
    [int]; an [int] is converted to a float first, which overflows from
    [2^1024 - 2^970] on; [None], lists and dicts reject a non-empty format
    string, a [str] rejects the code ['f']. *)
Definition format_4f (v : json) : result unit :=
  match v with
  | JBool _ => Return tt
  | JInt n => if Z.abs n <? 2 ^ 1024 - 2 ^ 970 then Return tt else Raise OverflowError
  | JFloat _ => Return tt
  | JStr _ | JIso _ => Raise ValueError
  | JNull | JArr _ | JObj _ => Raise TypeError
  end.

(** ** The module-level state *)

Inductive category : Type := Vessel | Buoy | BaseStation.

#[global] Instance category_eq_dec : EqDecision category.
Proof. solve_decision. Defined.

(** The [system_status] dict; its seven keys are fixed. *)
Record status : Type := {
  vessel_online : bool;
  buoy_online : bool;
  base_station_online : bool;
  vessel_last_seen : option datetime;
  buoy_last_seen : option datetime;
  base_station_last_seen : option datetime;
  total_messages : Z
}.

(** The globals of the module. A deque is kept as the list of its items,
    left to right. *)
Record store : Type := {
  vessel_data_history : list json;
  buoy_data_history : list json;
  base_station_data_history : list json;
  current_vessel_data : json;
  current_buoy_data : json;
  current_base_station_data : json;
  system_status : status
}.

Definition maxlen : nat := 1000.
Arguments maxlen : simpl never.

Definition initial_status : status :=
  {| vessel_online := false; buoy_online := false; base_station_online := false;
     vessel_last_seen := None; buoy_last_seen := None;
     base_station_last_seen := None; total_messages := 0 |}.

Definition initial_store : store :=
  {| vessel_data_history := []; buoy_data_history := [];
     base_station_data_history := [];
     current_vessel_data := JObj []; current_buoy_data := JObj [];
     current_base_station_data := JObj [];
     system_status := initial_status |}.

(** [deque.append] with a [maxlen]: put the item on the right, then drop
    one from the left when the deque has outgrown its bound. *)
Definition deque_append (d : list json) (x : json) : list json :=
  let d' := d ++ [x] in
  if (maxlen <? length d')%nat then tail d' else d'.

(** *** Reading the state of one category *)

Definition history (c : category) (st : store) : list json :=
  match c with
  | Vessel => vessel_data_history st
  | Buoy => buoy_data_history st
  | BaseStation => base_station_data_history st
  end.

Definition current (c : category) (st : store) : json :=
  match c with
  | Vessel => current_vessel_data st
  | Buoy => current_buoy_data st
  | BaseStation => current_base_station_data st
  end.

Definition online (c : category) (ss : status) : bool :=
  match c with
  | Vessel => vessel_online ss
  | Buoy => buoy_online ss
  | BaseStation => base_station_online ss
  end.

Definition last_seen (c : category) (ss : status) : option datetime :=
  match c with
  | Vessel => vessel_last_seen ss
  | Buoy => buoy_last_seen ss
  | BaseStation => base_station_last_seen ss
  end.

(** *** The assignments the handlers make *)

Definition set_history (c : category) (h : list json) (st : store) : store :=
  match c with
  | Vessel =>
      {| vessel_data_history := h;
         buoy_data_history := buoy_data_history st;
         base_station_data_history := base_station_data_history st;
         current_vessel_data := current_vessel_data st;
         current_buoy_data := current_buoy_data st;
         current_base_station_data := current_base_station_data st;
         system_status := system_status st |}
  | Buoy =>
      {| vessel_data_history := vessel_data_history st;
         buoy_data_history := h;
         base_station_data_history := base_station_data_history st;
         current_vessel_data := current_vessel_data st;
         current_buoy_data := current_buoy_data st;
         current_base_station_data := current_base_station_data st;
         system_status := system_status st |}
  | BaseStation =>
      {| vessel_data_history := vessel_data_history st;
         buoy_data_history := buoy_data_history st;
         base_station_data_history := h;
         current_vessel_data := current_vessel_data st;
         current_buoy_data := current_buoy_data st;
         current_base_station_data := current_base_station_data st;
         system_status := system_status st |}
  end.

Definition set_current (c : category) (data : json) (st : store) : store :=
  match c with
  | Vessel =>
      {| vessel_data_history := vessel_data_history st;
         buoy_data_history := buoy_data_history st;
         base_station_data_history := base_station_data_history st;
         current_vessel_data := data;
         current_buoy_data := current_buoy_data st;
         current_base_station_data := current_base_station_data st;
         system_status := system_status st |}
  | Buoy =>
      {| vessel_data_history := vessel_data_history st;
         buoy_data_history := buoy_data_history st;
         base_station_data_history := base_station_data_history st;
         current_vessel_data := current_vessel_data st;
         current_buoy_data := data;
         current_base_station_data := current_base_station_data st;
         system_status := system_status st |}
  | BaseStation =>
      {| vessel_data_history := vessel_data_history st;
         buoy_data_history := buoy_data_history st;
         base_station_data_history := base_station_data_history st;
         current_vessel_data := current_vessel_data st;
         current_buoy_data := current_buoy_data st;
         current_base_station_data := data;
         system_status := system_status st |}
  end.

Definition set_status (ss : status) (st : store) : store :=
  {| vessel_data_history := vessel_data_history st;
     buoy_data_history := buoy_data_history st;
     base_station_data_history := base_station_data_history st;
     current_vessel_data := current_vessel_data st;
     current_buoy_data := current_buoy_data st;
     current_base_station_data := current_base_station_data st;
     system_status := ss |}.

Definition set_online (c : category) (b : bool) (ss : status) : status :=
  match c with
  | Vessel =>
      {| vessel_online := b; buoy_online := buoy_online ss;
         base_station_online := base_station_online ss;
         vessel_last_seen := vessel_last_seen ss;
         buoy_last_seen := buoy_last_seen ss;
         base_station_last_seen := base_station_last_seen ss;
         total_messages := total_messages ss |}
  | Buoy =>
      {| vessel_online := vessel_online ss; buoy_online := b;
         base_station_online := base_station_online ss;
         vessel_last_seen := vessel_last_seen ss;
         buoy_last_seen := buoy_last_seen ss;
         base_station_last_seen := base_station_last_seen ss;
         total_messages := total_messages ss |}
  | BaseStation =>
      {| vessel_online := vessel_online ss; buoy_online := buoy_online ss;
         base_station_online := b;
         vessel_last_seen := vessel_last_seen ss;
         buoy_last_seen := buoy_last_seen ss;
         base_station_last_seen := base_station_last_seen ss;
         total_messages := total_messages ss |}
  end.

Definition set_last_seen (c : category) (t : option datetime) (ss : status)
  : status :=
  match c with
  | Vessel =>
      {| vessel_online := vessel_online ss; buoy_online := buoy_online ss;
         base_station_online := base_station_online ss;
         vessel_last_seen := t;
         buoy_last_seen := buoy_last_seen ss;
         base_station_last_seen := base_station_last_seen ss;
         total_messages := total_messages ss |}
  | Buoy =>
      {| vessel_online := vessel_online ss; buoy_online := buoy_online ss;
         base_station_online := base_station_online ss;
         vessel_last_seen := vessel_last_seen ss;
         buoy_last_seen := t;
         base_station_last_seen := base_station_last_seen ss;
         total_messages := total_messages ss |}
  | BaseStation =>
      {| vessel_online := vessel_online ss; buoy_online := buoy_online ss;
         base_station_online := base_station_online ss;
         vessel_last_seen := vessel_last_seen ss;
         buoy_last_seen := buoy_last_seen ss;
         base_station_last_seen := t;
         total_messages := total_messages ss |}
  end.

Definition set_total_messages (n : Z) (ss : status) : status :=
  {| vessel_online := vessel_online ss; buoy_online := buoy_online ss;
     base_station_online := base_station_online ss;
     vessel_last_seen := vessel_last_seen ss;
     buoy_last_seen := buoy_last_seen ss;
     base_station_last_seen := base_station_last_seen ss;
     total_messages := n |}.

(** ** Handlers as state-and-exception computations

    A handler runs against the globals and the Socket.IO channel.  What it
    has written stays written when a later statement raises: the state is
    threaded through a [Raise] as well. *)

(** One [socketio.emit(event, data, namespace='/')]. *)
Definition emission : Type := string * json.

Record world : Type := {
  globals : store;
  emitted : list emission
}.

Definition M (A : Type) : Type := world -> result A * world.

Definition ret {A} (a : A) : M A := fun w => (Return a, w).

Definition raise {A} (e : exn) : M A := fun w => (Raise e, w).

Definition bind {A B} (m : M A) (k : A -> M B) : M B :=
  fun w => match m w with
           | (Return a, w') => k a w'
           | (Raise e, w') => (Raise e, w')
           end.

(** [try: body except Exception as e: handler(e)] *)
Definition try_except {A} (body : M A) (handler : exn -> M A) : M A :=
  fun w => match body w with
           | (Return a, w') => (Return a, w')
           | (Raise e, w') => handler e w'
           end.

Definition lift {A} (r : result A) : M A := fun w => (r, w).

Definition modify (f : store -> store) : M unit :=
  fun w => (Return tt, {| globals := f (globals w); emitted := emitted w |}).

Definition emit (event : string) (data : json) : M unit :=
  fun w => (Return tt, {| globals := globals w;
                          emitted := emitted w ++ [(event, data)] |}).

Declare Scope handler_scope.
Delimit Scope handler_scope with handler.
Notation "x <- m ;; k" := (bind m (fun x => k))
  (at level 100, m at next level, right associativity) : handler_scope.
Notation "m ;; k" := (bind m (fun _ => k))
  (at level 100, right associativity) : handler_scope.
Local Open Scope handler_scope.

(** *** The statements inside [with data_lock:] of a POST handler *)

Definition history_append (c : category) (data : json) (st : store) : store :=
  set_history c (deque_append (history c st) data) st.

Definition mark_online (c : category) (st : store) : store :=
  set_status (set_online c true (system_status st)) st.

Definition stamp_last_seen (c : category) (now : datetime) (st : store) : store :=
  set_status (set_last_seen c (Some now) (system_status st)) st.

Definition count_message (st : store) : store :=
  set_status
    (set_total_messages (total_messages (system_status st) + 1) (system_status st))
    st.

(** The whole critical section, in the order of the source. *)
Definition locked_update (c : category) (data : json) (now : datetime)
  (st : store) : store :=
  count_message
    (stamp_last_seen c now
       (mark_online c
          (set_current c data
             (history_append c data st)))).

(** *** What differs between the three POST handlers *)

Definition update_event (c : category) : string :=
  match c with
  | Vessel => "vessel_update"
  | Buoy => "buoy_update"
  | BaseStation => "basestation_update"
  end.

(** The console.  [print] encodes its line for [sys.stdout], which is
    UTF-8 with strict errors, the set-up Python gives a server started
    from a UTF-8 locale.  UTF-8 encodes every code point but the
    surrogates, so the marks and the fixed text of the log lines, numbers,
    and the message of an exception can always be written; what can fail
    is a field of the payload that is written as it is. *)

(** A [str] holds a surrogate: in its bytes, [ED] is followed by a byte
    from [A0] to [BF]. *)
Fixpoint has_surrogate (s : string) : bool :=
  match s with
  | EmptyString => false
  | String a rest =>
      match rest with
      | String b _ =>
          ((Ascii.N_of_ascii a =? 237)%N &&
           (160 <=? Ascii.N_of_ascii b)%N && (Ascii.N_of_ascii b <=? 191)%N)
          || has_surrogate rest
      | EmptyString => false
      end
  end.

(** Whether the console can write [format(v, '')], the text of a field
    that an f-string takes without a format.  A [str] is written as it is.
    [None], booleans and numbers are ASCII; a list or a dict is written
    through [repr], which escapes the surrogates of the strings in it. *)
Definition console_writes (v : json) : bool :=
  match v with
  | JStr s => negb (has_surrogate s)
  | _ => true
  end.

(** [print] of a line whose only field written as it is holds [v]. *)
Definition print_with (v : json) : result unit :=
  if console_writes v then Return tt else Raise UnicodeEncodeError.

(** The field of the payload a log line writes as it is:
    [data.get('id')], [data.get('buoy_id')] and
    [data.get('messages_relayed', 0)]. *)
Definition logged_field (c : category) (data : json) : json :=
  match c with
  | Vessel => get data "id"
  | Buoy => get data "buoy_id"
  | BaseStation => get_default data "messages_relayed" (JInt 0)
  end.

(** The [print] of a handler's success line: the f-string is evaluated
    first, and a field with format [.4f] must be a number; then the line
    is written to the console.  The vessel and buoy lines format [lat] and
    [lon]; the base station line formats nothing. *)
Definition log_line (c : category) (data : json) : result unit :=
  match c with
  | Vessel | Buoy =>
      match format_4f (get data "lat") with
      | Return _ =>
          match format_4f (get data "lon") with
          | Return _ => print_with (logged_field c data)
          | Raise e => Raise e
          end
      | Raise e => Raise e
      end
  | BaseStation => print_with (logged_field c data)
  end.

Inductive http_method : Type := POST | OPTIONS.

(** The bodies of the replies: [('', 200)], the success object with its
    ["timestamp"], and the error object with status 400. *)
Inductive response : Type :=
| Empty200
| Success200 (timestamp : json)
| Error400 (e : exn).

(** [receive_vessel_data], [receive_buoy_data] and
    [receive_basestation_data] are one text up to the names of their
    globals, their event and their log line.  [clock_stamp] is what
    [datetime.now()] reads for [server_timestamp], [clock_seen] what it
    reads again, inside the lock, for [<category>_last_seen]. *)
Definition receive_data (c : category) (method : http_method) (payload : json)
  (clock_stamp clock_seen : datetime) : M response :=
  match method with
  | OPTIONS => ret Empty200
  | POST =>
      try_except
        (data <- lift (setitem payload "server_timestamp" (JIso clock_stamp)) ;;
         modify (locked_update c data clock_seen) ;;
         emit (update_event c) data ;;
         lift (log_line c data) ;;
         ts <- lift (getitem data "server_timestamp") ;;
         ret (Success200 ts))
        (fun e => ret (Error400 e))
  end.

Definition receive_vessel_data := receive_data Vessel.
Definition receive_buoy_data := receive_data Buoy.
Definition receive_basestation_data := receive_data BaseStation.

(** *** GET handlers *)

(** [lst[start:]] *)
Definition slice_from {A} (start : Z) (lst : list A) : list A :=
  let n := Z.of_nat (length lst) in
  let i := if start <? 0 then Z.max (start + n) 0 else Z.min start n in
  drop (Z.to_nat i) lst.

(** [request.args.get('limit', 100, type=int)]: the parsed argument, or
    100 when it is missing or does not parse. *)
Definition limit_arg (arg : option Z) : Z :=
  match arg with Some n => n | None => 100 end.

(** [get_vessel_history] and its two siblings: [list(history)[-limit:]],
    always with status 200. *)
Definition get_history (c : category) (arg : option Z) (st : store) : list json :=
  let limit := limit_arg arg in
  slice_from (- limit) (history c st).

Definition get_vessel_history := get_history Vessel.
Definition get_buoy_history := get_history Buoy.
Definition get_basestation_history := get_history BaseStation.

Definition get_latest (c : category) (st : store) : json := current c st.

Definition get_latest_vessel := get_latest Vessel.
Definition get_latest_buoy := get_latest Buoy.
Definition get_latest_basestation := get_latest BaseStation.

(** The object [get_all_latest] serialises while it holds the lock. *)
Record all_latest : Type := {
  al_vessel : json;
  al_buoy : json;
  al_base_station : json;
  al_system_status : status
}.

Definition get_all_latest (st : store) : all_latest :=
  {| al_vessel := current_vessel_data st;
     al_buoy := current_buoy_data st;
     al_base_station := current_base_station_data st;
     al_system_status := system_status st |}.

Definition get_system_status (st : store) : status := system_status st.

(** ** The background task *)

(** [(current_time - last_seen).total_seconds() > 30].  The difference of
    two datetimes is an exact count of microseconds and [total_seconds]
    divides it by [10**6] with correct rounding, so the float test agrees
    with the integer one. *)
Definition silent_for_more_than_30s (current_time seen : datetime) : bool :=
  30 * 10 ^ 6 <? current_time - seen.

(** One of the three [if system_status[...]:] blocks. *)
Definition check_category (c : category) (current_time : datetime) (ss : status)
  : status :=
  match last_seen c ss with
  | Some seen =>
      if silent_for_more_than_30s current_time seen
      then set_online c false ss
      else ss
  | None => ss
  end.

(** The [with data_lock:] block of one turn of [check_device_status]. *)
Definition check_device_status (current_time : datetime) (st : store) : store :=
  set_status
    (check_category BaseStation current_time
       (check_category Buoy current_time
          (check_category Vessel current_time (system_status st))))
    st.

(** ** Serving a sequence of requests

    Every handler does its writes and its reads inside [with data_lock:],
    so a run of the server is a sequence of whole critical sections.  A
    request carries the readings of the clock its handler will make. *)

Inductive request : Type :=
| PostData (c : category) (method : http_method) (payload : json)
    (clock_stamp clock_seen : datetime)
| GetLatest (c : category)
| GetHistory (c : category) (arg : option Z)
| GetAllLatest
| GetStatus
| StatusCheck (current_time : datetime).

Definition serve (req : request) (w : world) : world :=
  match req with
  | PostData c method payload clock_stamp clock_seen =>
      snd (receive_data c method payload clock_stamp clock_seen w)
  | StatusCheck current_time =>
      {| globals := check_device_status current_time (globals w);
         emitted := emitted w |}
  | GetLatest _ | GetHistory _ _ | GetAllLatest | GetStatus => w
  end.

Definition run (reqs : list request) (w : world) : world :=
  fold_left (fun w req => serve req w) reqs w.

Definition initial_world : world :=
  {| globals := initial_store; emitted := [] |}.

(** The reply of a POST handler does not depend on the state. *)
Definition reply (c : category) (method : http_method) (payload : json)
  (clock_stamp clock_seen : datetime) : result response :=
  fst (receive_data c method payload clock_stamp clock_seen initial_world).

(** The record a POST puts in the store: the payload with its stamp. *)
Definition stamped (payload : json) (clock_stamp : datetime) : json :=
  match payload with
  | JObj kvs => JObj (dict_set "server_timestamp" (JIso clock_stamp) kvs)
  | other => other
  end.

(** A request is accepted when it is a POST of a mapping: it passes the
    stamping and enters the critical section. *)
Definition accepted_by (c : category) (req : request) : option json :=
  match req with
  | PostData c' POST payload clock_stamp _ =>
      if is_mapping payload && bool_decide (c' = c)
      then Some (stamped payload clock_stamp)
      else None
  | _ => None
  end.

(** A request is successful when its handler answers with the success
    object. *)
Definition successful_by (c : category) (req : request) : option json :=
  match req with
  | PostData c' method payload clock_stamp clock_seen =>
      match reply c' method payload clock_stamp clock_seen with
      | Return (Success200 _) => accepted_by c req
      | _ => None
      end
  | _ => None
  end.

(** The accepted records of a category, in the order of acceptance. *)
Definition accepted (c : category) (reqs : list request) : list json :=
  omap (accepted_by c) reqs.

Definition successful (c : category) (reqs : list request) : list json :=
  omap (successful_by c) reqs.

(** A POST fails late when it raises after its critical section. *)
Definition fails_late (req : request) : bool :=
  match req with
  | PostData c POST payload clock_stamp clock_seen =>
      is_mapping payload &&
      match reply c POST payload clock_stamp clock_seen with
      | Return (Success200 _) => false
      | _ => true
      end
  | _ => false
  end.

(** The last [n] items of a list. *)
Definition last_n {A} (n : nat) (l : list A) : list A :=
  drop (length l - n) l.

(** ** Accepted messages and stale categories *)

Definition is_accepted (req : request) : bool :=
  match req with
  | PostData _ POST payload _ _ => is_mapping payload
  | _ => false
  end.

Definition is_successful (req : request) : bool :=
  match req with
  | PostData c method payload clock_stamp clock_seen =>
      match reply c method payload clock_stamp clock_seen with
      | Return (Success200 _) => true
      | _ => false
      end
  | _ => false
  end.

Definition total (w : world) : Z := total_messages (system_status (globals w)).

(** The test one block of the status check makes for its category. *)
Definition stale (c : category) (current_time : datetime) (ss : status) : bool :=
  match last_seen c ss with
  | Some seen => silent_for_more_than_30s current_time seen
  | None => false
  end.

(** ** Threads and the lock

    The server runs one thread per request and one background thread.
    A thread is the list of the statements it still has to run, cut at the
    points where another thread can come in between: taking and leaving
    [data_lock], each write of a global, each serialisation of the globals
    for a reply, each emit. *)

Inductive instr : Type :=
| Acquire
| Release
| Write (f : store -> store)
| ReadAllLatest
| ReadStatus
| Emit (event : string) (data : json).

Inductive client : Type :=
| ClientPost (c : category) (payload : json) (clock_stamp clock_seen : datetime)
| ClientAllLatest
| ClientStatus
| ClientChecker (times : list datetime).

(** A POST handler: the stamping runs before the lock and ends the thread
    when it raises; the print and the return touch nothing shared. *)
Definition post_thread (c : category) (payload : json)
  (clock_stamp clock_seen : datetime) : list instr :=
  match setitem payload "server_timestamp" (JIso clock_stamp) with
  | Raise _ => []
  | Return data =>
      [ Acquire;
        Write (history_append c data);
        Write (set_current c data);
        Write (mark_online c);
        Write (stamp_last_seen c clock_seen);
        Write count_message;
        Release;
        Emit (update_event c) data ]
  end.

Definition check_in_store (c : category) (current_time : datetime) (st : store)
  : store :=
  set_status (check_category c current_time (system_status st)) st.

(** One turn of the background loop, and the turns it makes when the clock
    reads [times] after its sleeps. *)
Definition check_round (current_time : datetime) : list instr :=
  [ Acquire;
    Write (check_in_store Vessel current_time);
    Write (check_in_store Buoy current_time);
    Write (check_in_store BaseStation current_time);
    Release ].

Definition checker_thread (times : list datetime) : list instr :=
  concat (map check_round times).

Definition thread_of (cl : client) : list instr :=
  match cl with
  | ClientPost c payload clock_stamp clock_seen =>
      post_thread c payload clock_stamp clock_seen
  | ClientAllLatest => [Acquire; ReadAllLatest; Release]
  | ClientStatus => [Acquire; ReadStatus; Release]
  | ClientChecker times => checker_thread times
  end.

(** What a reader got back. *)
Inductive observation : Type :=
| SawAllLatest (a : all_latest)
| SawStatus (s : status).

Record config : Type := {
  shared : world;
  holder : option nat;
  pool : list (list instr);
  observed : list observation
}.

Definition initial_config (clients : list client) : config :=
  {| shared := initial_world; holder := None;
     pool := map thread_of clients; observed := [] |}.

(** Thread [i] runs its next statement; [None] when it has none left or
    waits for the lock.  A write does not look at the lock: only the
    [with] blocks of the handlers keep writers and readers apart. *)
Definition step_thread (i : nat) (cfg : config) : option config :=
  match pool cfg !! i with
  | Some (ins :: rest) =>
      let continue sh h obs :=
        Some {| shared := sh; holder := h;
                pool := <[i := rest]> (pool cfg); observed := obs |} in
      match ins with
      | Acquire =>
          match holder cfg with
          | None => continue (shared cfg) (Some i) (observed cfg)
          | Some _ => None
          end
      | Release =>
          match holder cfg with
          | Some _ => continue (shared cfg) None (observed cfg)
          | None => None
          end
      | Write f =>
          continue {| globals := f (globals (shared cfg));
                      emitted := emitted (shared cfg) |}
                   (holder cfg) (observed cfg)
      | ReadAllLatest =>
          continue (shared cfg) (holder cfg)
            (observed cfg ++ [SawAllLatest (get_all_latest (globals (shared cfg)))])
      | ReadStatus =>
          continue (shared cfg) (holder cfg)
            (observed cfg ++ [SawStatus (get_system_status (globals (shared cfg)))])
      | Emit event data =>
          continue {| globals := globals (shared cfg);
                      emitted := emitted (shared cfg) ++ [(event, data)] |}
                   (holder cfg) (observed cfg)
      end
  | _ => None
  end.

(** An interleaving is the order in which the threads get their turns; a
    turn given to a thread that cannot move is lost. *)
Definition turn (cfg : config) (i : nat) : config :=
  match step_thread i cfg with
  | Some cfg' => cfg'
  | None => cfg
  end.

Definition interleave (schedule : list nat) (cfg : config) : config :=
  fold_left turn schedule cfg.

(** The requests the clients make. *)
Definition requests_of (cl : client) : list request :=
  match cl with
  | ClientPost c payload clock_stamp clock_seen =>
      [PostData c POST payload clock_stamp clock_seen]
  | ClientChecker times => map StatusCheck times
  | ClientAllLatest | ClientStatus => []
  end.

(** A request one of the clients makes. *)
Definition asked (clients : list client) (req : request) : Prop :=
  exists cl, In cl clients /\ In req (requests_of cl).

(** A store is whole when it is what some sequence of the clients'
    requests, each served from start to end, leaves behind. *)
Definition whole (clients : list client) (st : store) : Prop :=
  exists reqs,
    Forall (asked clients) reqs /\
    st = globals (run reqs initial_world).

Definition whole_observation (clients : list client) (o : observation) : Prop :=
  exists st, whole clients st /\
    match o with
    | SawAllLatest a => a = get_all_latest st
    | SawStatus s => s = get_system_status st
    end.

(** The latest record and [last_seen] of a category come from one and the
    same POST of a client, or nothing was posted yet. *)
Definition same_ingest (clients : list client) (c : category)
  (latest : json) (seen : option datetime) : Prop :=
  (latest = JObj [] /\ seen = None) \/
  exists kvs clock_stamp clock_seen,
    In (ClientPost c (JObj kvs) clock_stamp clock_seen) clients /\
    latest = stamped (JObj kvs) clock_stamp /\
    seen = Some clock_seen.

Definition latest_in (c : category) (a : all_latest) : json :=
  match c with
  | Vessel => al_vessel a
  | Buoy => al_buoy a
  | BaseStation => al_base_station a
  end.

Definition is_write (ins : instr) : Prop :=
  match ins with Write _ => True | _ => False end.

Definition is_read (ins : instr) : Prop :=
  match ins with ReadAllLatest | ReadStatus => True | _ => False end.

Fixpoint run_writes (ws : list instr) (st : store) : store :=
  match ws with
  | Write f :: ws' => run_writes ws' (f st)
  | _ :: ws' => run_writes ws' st
  | [] => st
  end.

(** The code of a thread that is outside the lock. *)
Inductive outside (clients : list client) : list instr -> Prop :=
| outside_done : outside clients []
| outside_emit event data k :
    outside clients k -> outside clients (Emit event data :: k)
| outside_writer ws k :
    Forall is_write ws ->
    (forall st, whole clients st -> whole clients (run_writes ws st)) ->
    outside clients k ->
    outside clients (Acquire :: ws ++ Release :: k)
| outside_reader r k :
    is_read r -> outside clients k ->
    outside clients (Acquire :: r :: Release :: k).

(** The code of the thread that holds the lock, against the store. *)
Inductive inside (clients : list client) (st : store) : list instr -> Prop :=
| inside_writer ws k :
    Forall is_write ws ->
    whole clients (run_writes ws st) ->
    outside clients k ->
    inside clients st (ws ++ Release :: k)
| inside_reader r k :
    is_read r -> whole clients st -> outside clients k ->
    inside clients st (r :: Release :: k).

Definition lock_invariant (clients : list client) (cfg : config) : Prop :=
  Forall (whole_observation clients) (observed cfg) /\
  match holder cfg with
  | None =>
      whole clients (globals (shared cfg)) /\
      Forall (outside clients) (pool cfg)
  | Some i =>
      (exists code, pool cfg !! i = Some code /\
                    inside clients (globals (shared cfg)) code) /\
      (forall j code, j <> i -> pool cfg !! j = Some code -> outside clients code)
  end.

(** ** Sample runs *)

(** A vessel reading with the fields the log line formats. *)
Definition vessel_reading (i : nat) : request :=
  PostData Vessel POST
    (JObj [("id", JInt (Z.of_nat i)); ("lat", JInt 12); ("lon", JInt 77)])
    (Z.of_nat i) (Z.of_nat i).

Definition vessel_readings (n : nat) : list request :=
  map vessel_reading (seq 0 n).

(** Readings of all three devices, mixed with reads and a status check. *)
Definition mixed_run : list request :=
  [ vessel_reading 1;
    PostData Buoy POST (JObj [("buoy_id", JStr "B1"); ("lat", JFloat 0); ("lon", JInt 3)]) 5 6;
    GetAllLatest;
    PostData BaseStation POST (JObj []) 7 7;
    StatusCheck 40000000;
    PostData Vessel POST (JStr "not-a-mapping") 8 8;
    PostData Buoy OPTIONS JNull 9 9;
    vessel_reading 2;
    GetHistory Vessel None ].

Definition three_records : store :=
  set_history Vessel [JObj [("n", JInt 1)]; JObj [("n", JInt 2)]; JObj [("n", JInt 3)]]
    initial_store.


(** A vessel posts while two dashboards read everything. *)
Definition vessel_and_readers : list client :=
  [ ClientPost Vessel (JObj [("id", JStr "V1")]) 5 6;
    ClientAllLatest;
    ClientAllLatest ].

(** The first reader goes first; the writer then gets as far as the write
    of the latest record; the second reader asks for the lock in between
    and has to wait until the writer is through. *)
Definition reader_in_between : list nat :=
  [1; 1; 1; 0; 0; 0; 2; 2; 0; 0; 0; 2; 0; 2; 2; 2; 0]%nat.


(** ** Broadcasts, sightings and formats of a run *)

(** The event a request sends to the dashboards, when it sends one. *)
Definition broadcast_of (req : request) : option emission :=
  match req with
  | PostData c POST payload clock_stamp _ =>
      if is_mapping payload
      then Some (update_event c, stamped payload clock_stamp)
      else None
  | _ => None
  end.

(** The reading of the clock a request leaves in [last_seen] of [c]. *)
Definition seen_by (c : category) (req : request) : option datetime :=
  match req with
  | PostData c' POST payload _ clock_seen =>
      if is_mapping payload && bool_decide (c' = c) then Some clock_seen else None
  | _ => None
  end.

(** The values of a payload field that [:.4f] can print: a [bool], a
    float, or an [int] small enough to become a float. *)
Definition formattable (field : option json) : bool :=
  match field with
  | Some (JBool _) | Some (JFloat _) => true
  | Some (JInt n) => Z.abs n <? 2 ^ 1024 - 2 ^ 970
  | _ => false
  end.

(** ** Schedules *)

(** The statements that belong inside [with data_lock:]. *)
Definition in_critical (ins : instr) : Prop :=
  match ins with
  | Write _ | ReadAllLatest | ReadStatus | Release => True
  | Acquire | Emit _ _ => False
  end.

Definition finished (cfg : config) : Prop :=
  Forall (fun code => code = []) (pool cfg).

(** The statements the threads still have to run. *)
Definition remaining (threads : list (list instr)) : nat :=
  sum_list (map length threads).

(** The schedule that lets every thread run to its end before the next
    one starts, in the order of the clients. *)
Fixpoint serial_from (i : nat) (clients : list client) : list nat :=
  match clients with
  | [] => []
  | cl :: rest => replicate (length (thread_of cl)) i ++ serial_from (S i) rest
  end.

Definition serial (clients : list client) : list nat := serial_from 0 clients.

(** What the statements of one thread do to the shared state and to the
    list of observations when no other thread moves in between. *)
Fixpoint run_code (code : list instr) (w : world) (obs : list observation)
  : world * list observation :=
  match code with
  | [] => (w, obs)
  | Write f :: k =>
      run_code k {| globals := f (globals w); emitted := emitted w |} obs
  | ReadAllLatest :: k =>
      run_code k w (obs ++ [SawAllLatest (get_all_latest (globals w))])
  | ReadStatus :: k =>
      run_code k w (obs ++ [SawStatus (get_system_status (globals w))])
  | Emit event data :: k =>
      run_code k {| globals := globals w; emitted := emitted w ++ [(event, data)] |} obs
  | (Acquire | Release) :: k => run_code k w obs
  end.

(** ** Basic facts *)

Lemma dict_get_set k v kvs : dict_get k (dict_set k v kvs) = Some v.
Proof.
  induction kvs as [|[k' v'] rest IH]; simpl.
  - now rewrite String.eqb_refl.
  - destruct (String.eqb k k') eqn:E; simpl; rewrite E; [reflexivity | exact IH].
Qed.

Lemma dict_get_set_other k k' v kvs :
  k <> k' -> dict_get k' (dict_set k v kvs) = dict_get k' kvs.
Proof.
  intros Hne. induction kvs as [|[k0 v0] rest IH]; simpl.
  - destruct (String.eqb_spec k' k); congruence.
  - destruct (String.eqb_spec k k0) as [->|]; simpl.
    + destruct (String.eqb_spec k' k0); congruence.
    + now rewrite IH.
Qed.

Section Projections.
Variables (c c' : category) (st : store) (ss : status).

Lemma history_set_history h : history c (set_history c h st) = h.
Proof. now destruct c. Qed.

Lemma history_set_history_other h :
  c <> c' -> history c' (set_history c h st) = history c' st.
Proof. destruct c, c'; simpl; congruence. Qed.

Lemma history_set_current d : history c' (set_current c d st) = history c' st.
Proof. now destruct c, c'. Qed.

Lemma history_set_status : history c (set_status ss st) = history c st.
Proof. now destruct c. Qed.

Lemma current_set_current d : current c (set_current c d st) = d.
Proof. now destruct c. Qed.

Lemma current_set_current_other d :
  c <> c' -> current c' (set_current c d st) = current c' st.
Proof. destruct c, c'; simpl; congruence. Qed.

Lemma current_set_history h : current c' (set_history c h st) = current c' st.
Proof. now destruct c, c'. Qed.

Lemma current_set_status : current c (set_status ss st) = current c st.
Proof. now destruct c. Qed.

Lemma status_set_history h : system_status (set_history c h st) = system_status st.
Proof. now destruct c. Qed.

Lemma status_set_current d : system_status (set_current c d st) = system_status st.
Proof. now destruct c. Qed.

Lemma online_set_online b : online c (set_online c b ss) = b.
Proof. now destruct c. Qed.

Lemma online_set_online_other b :
  c <> c' -> online c' (set_online c b ss) = online c' ss.
Proof. destruct c, c'; simpl; congruence. Qed.

Lemma online_set_last_seen t : online c' (set_last_seen c t ss) = online c' ss.
Proof. now destruct c, c'. Qed.

Lemma last_seen_set_last_seen t : last_seen c (set_last_seen c t ss) = t.
Proof. now destruct c. Qed.

Lemma last_seen_set_last_seen_other t :
  c <> c' -> last_seen c' (set_last_seen c t ss) = last_seen c' ss.
Proof. destruct c, c'; simpl; congruence. Qed.

Lemma last_seen_set_online b : last_seen c' (set_online c b ss) = last_seen c' ss.
Proof. now destruct c, c'. Qed.

Lemma total_set_online b : total_messages (set_online c b ss) = total_messages ss.
Proof. now destruct c. Qed.

Lemma total_set_last_seen t :
  total_messages (set_last_seen c t ss) = total_messages ss.
Proof. now destruct c. Qed.

Lemma online_set_total n : online c (set_total_messages n ss) = online c ss.
Proof. now destruct c. Qed.

Lemma last_seen_set_total n :
  last_seen c (set_total_messages n ss) = last_seen c ss.
Proof. now destruct c. Qed.
End Projections.

Create Rewrite HintDb store.
#[local] Hint Rewrite history_set_history history_set_current history_set_status
  current_set_current current_set_history current_set_status
  status_set_history status_set_current
  online_set_online online_set_last_seen
  last_seen_set_last_seen last_seen_set_online
  total_set_online total_set_last_seen online_set_total last_seen_set_total
  : store.

(** What a POST of a mapping does, in one equation. *)
Lemma receive_data_mapping c kvs clock_stamp clock_seen w :
  let data := stamped (JObj kvs) clock_stamp in
  receive_data c POST (JObj kvs) clock_stamp clock_seen w =
  (Return match log_line c data with
          | Return _ => Success200 (JIso clock_stamp)
          | Raise e => Error400 e
          end,
   {| globals := locked_update c data clock_seen (globals w);
      emitted := emitted w ++ [(update_event c, data)] |}).
Proof.
  unfold receive_data, try_except, bind, lift, modify, emit, ret; simpl.
  destruct (log_line c _); simpl; [|reflexivity].
  now rewrite dict_get_set.
Qed.

(** What a POST of anything else does. *)
Lemma receive_data_not_mapping c payload clock_stamp clock_seen w :
  is_mapping payload = false ->
  receive_data c POST payload clock_stamp clock_seen w =
  (Return (Error400 TypeError), w).
Proof. now destruct payload. Qed.

Lemma receive_data_options c payload clock_stamp clock_seen w :
  receive_data c OPTIONS payload clock_stamp clock_seen w = (Return Empty200, w).
Proof. reflexivity. Qed.

Lemma run_snoc reqs req w : run (reqs ++ [req]) w = serve req (run reqs w).
Proof. unfold run. now rewrite fold_left_app. Qed.

Lemma reply_receive_data c method payload clock_stamp clock_seen w :
  fst (receive_data c method payload clock_stamp clock_seen w) =
  reply c method payload clock_stamp clock_seen.
Proof.
  unfold reply. destruct method; [|reflexivity].
  destruct payload; try reflexivity.
  now rewrite !receive_data_mapping.
Qed.

(** ** The bounded history *)

Lemma last_n_short {A} n (l : list A) : (length l <= n)%nat -> last_n n l = l.
Proof. intros H. unfold last_n. now replace (length l - n)%nat with 0%nat by lia. Qed.

Lemma length_last_n {A} n (l : list A) : length (last_n n l) = Nat.min n (length l).
Proof. unfold last_n. rewrite length_drop. lia. Qed.

Lemma deque_append_last_n log x :
  deque_append (last_n maxlen log) x = last_n maxlen (log ++ [x]).
Proof.
  unfold deque_append.
  destruct (Nat.ltb_spec maxlen (length (last_n maxlen log ++ [x]))) as [Hfull|Hroom];
    rewrite length_app, length_last_n in *; change (length [x]) with 1%nat in *.
  - unfold last_n. rewrite length_app; change (length [x]) with 1%nat.
    replace (length log + 1 - maxlen)%nat with (S (length log - maxlen)) by lia.
    rewrite <- drop_app_le by lia.
    generalize (length log - maxlen)%nat as k; intros k.
    replace (S k) with (k + 1)%nat by lia.
    rewrite <- drop_drop. now destruct (drop k (log ++ [x])).
  - rewrite (last_n_short _ log) by lia.
    rewrite last_n_short; [reflexivity|].
    rewrite length_app; change (length [x]) with 1%nat; lia.
Qed.

Lemma history_locked_update c c' data now st :
  history c' (locked_update c data now st) =
  if bool_decide (c = c') then deque_append (history c' st) data else history c' st.
Proof.
  unfold locked_update, count_message, stamp_last_seen, mark_online, history_append.
  autorewrite with store.
  case_bool_decide as Hc.
  - subst c'. now rewrite history_set_history.
  - now rewrite history_set_history_other.
Qed.

Lemma history_check_device_status c now st :
  history c (check_device_status now st) = history c st.
Proof. unfold check_device_status. now autorewrite with store. Qed.

(** One request moves the history of [c] by at most one [deque.append]. *)
Lemma history_serve c req w :
  history c (globals (serve req w)) =
  match accepted_by c req with
  | Some data => deque_append (history c (globals w)) data
  | None => history c (globals w)
  end.
Proof.
  destruct req as [c' m payload t1 t2| | | | |current_time]; simpl;
    try reflexivity; try apply history_check_device_status.
  destruct m; [|reflexivity].
  destruct payload; try reflexivity.
  rewrite receive_data_mapping; simpl.
  rewrite history_locked_update. now destruct (bool_decide (c' = c)).
Qed.

Lemma history_run c reqs :
  history c (globals (run reqs initial_world)) = last_n maxlen (accepted c reqs).
Proof.
  induction reqs as [|req reqs IH] using rev_ind.
  - now destruct c.
  - rewrite run_snoc, history_serve, IH. unfold accepted.
    rewrite omap_app; simpl.
    destruct (accepted_by c req) as [data|]; simpl.
    + apply deque_append_last_n.
    + now rewrite app_nil_r.
Qed.

Lemma slice_from_whole {A} (n : Z) (l : list A) :
  Z.of_nat (length l) <= n -> slice_from (- n) l = l.
Proof.
  intros H. unfold slice_from.
  destruct (Z.ltb_spec (- n) 0).
  - now replace (Z.to_nat (Z.max (- n + Z.of_nat (length l)) 0)) with 0%nat by lia.
  - replace (Z.to_nat (Z.min (- n) (Z.of_nat (length l)))) with 0%nat by lia.
    reflexivity.
Qed.

Lemma successful_by_accepted_by c req data :
  successful_by c req = Some data -> accepted_by c req = Some data.
Proof.
  destruct req; simpl; try discriminate.
  destruct (reply _ _ _ _ _) as [[]|]; try discriminate. trivial.
Qed.

Lemma successful_sublist c reqs : sublist (successful c reqs) (accepted c reqs).
Proof.
  unfold successful, accepted.
  induction reqs as [|req reqs IH]; simpl; [constructor|].
  destruct (successful_by c req) as [data|] eqn:Hs.
  - rewrite (successful_by_accepted_by _ _ _ Hs). now constructor.
  - destruct (accepted_by c req); [now constructor | exact IH].
Qed.

Lemma accepted_by_successful_by c req :
  fails_late req = false -> accepted_by c req = successful_by c req.
Proof.
  destruct req as [c' m payload t1 t2| | | | |]; try reflexivity.
  unfold successful_by, fails_late.
  destruct m; [|reflexivity].
  destruct (reply c' POST payload t1 t2) as [[]|]; try reflexivity.
  all: simpl; destruct (is_mapping payload); simpl; congruence.
Qed.

(** Without late failures, accepted and successful are the same records. *)
Lemma accepted_successful c reqs :
  forallb (fun req => negb (fails_late req)) reqs = true ->
  accepted c reqs = successful c reqs.
Proof.
  unfold successful, accepted.
  induction reqs as [|req reqs IH]; [reflexivity|].
  intros [Hreq%negb_true_iff Hrest]%andb_true_iff.
  change (omap ?f (req :: reqs))
    with (match f req with Some y => y :: omap f reqs | None => omap f reqs end).
  now rewrite (IH Hrest), (accepted_by_successful_by c _ Hreq).
Qed.

Lemma deque_append_full h data :
  length h = maxlen -> deque_append h data = tail h ++ [data].
Proof.
  intros Hlen. unfold deque_append.
  rewrite length_app, Hlen; change (length [data]) with 1%nat.
  destruct (Nat.ltb_spec maxlen (maxlen + 1)); [|lia].
  destruct h; [discriminate | reflexivity].
Qed.

(** C1. The history of a category never holds more than 1000 records:
    appending to a full history evicts the oldest one.  After any run of
    the server, [history(category, 1000)] is exactly the last 1000 accepted
    records of that category in the order of acceptance, oldest first; so
    it has 1000 records once more than 1000 were accepted.  Every
    successful ingest is an accepted one, and the two coincide when no
    handler raised after its critical section. *)
Theorem bounded_history (reqs : list request) (c : category) :
  let st := globals (run reqs initial_world) in
  (length (history c st) <= 1000)%nat /\
  (forall h data, length h = 1000%nat -> deque_append h data = tail h ++ [data]) /\
  get_history c (Some 1000) st = last_n 1000 (accepted c reqs) /\
  length (get_history c (Some 1000) st) = Nat.min 1000 (length (accepted c reqs)) /\
  sublist (successful c reqs) (accepted c reqs) /\
  (forallb (fun req => negb (fails_late req)) reqs = true ->
   accepted c reqs = successful c reqs).
Proof.
  intros st.
  assert (Hhist : history c st = last_n maxlen (accepted c reqs))
    by apply history_run.
  assert (Hlen : (length (history c st) <= maxlen)%nat)
    by (rewrite Hhist, length_last_n; lia).
  assert (Hget : get_history c (Some 1000) st = history c st).
  { unfold get_history, limit_arg. apply slice_from_whole.
    unfold maxlen in Hlen. lia. }
  split; [exact Hlen|].
  split; [exact deque_append_full|].
  split; [now rewrite Hget, Hhist|].
  split; [now rewrite Hget, Hhist, length_last_n|].
  split; [apply successful_sublist | apply accepted_successful].
Qed.

Lemma bounded_history_witness :
  length (successful Vessel (vessel_readings 1001)) = 1001%nat /\
  get_history Vessel (Some 1000)
    (globals (run (vessel_readings 1001) initial_world)) =
  last_n 1000 (successful Vessel (vessel_readings 1001)).
Proof.
  destruct (bounded_history (vessel_readings 1001) Vessel)
    as (_ & _ & Hget & _ & _ & Hsame).
  rewrite <- Hsame by (vm_compute; reflexivity).
  split; [vm_compute; reflexivity | exact Hget].
Defined.

(** ** The message counter *)

Lemma total_locked_update c data now st :
  total_messages (system_status (locked_update c data now st)) =
  total_messages (system_status st) + 1.
Proof.
  unfold locked_update, count_message, stamp_last_seen, mark_online, history_append.
  simpl. now autorewrite with store.
Qed.

Lemma total_check_category c now ss :
  total_messages (check_category c now ss) = total_messages ss.
Proof.
  unfold check_category.
  destruct (last_seen c ss); [|reflexivity].
  destruct (silent_for_more_than_30s _ _); [apply total_set_online | reflexivity].
Qed.

Lemma total_serve req w :
  total (serve req w) = total w + (if is_accepted req then 1 else 0).
Proof.
  unfold total.
  destruct req as [c m payload t1 t2| | | | |current_time];
    unfold serve, is_accepted; try lia.
  - destruct m; [|rewrite receive_data_options; simpl; lia].
    destruct payload;
      try (rewrite receive_data_not_mapping by reflexivity; simpl; lia).
    rewrite receive_data_mapping. apply total_locked_update.
  - simpl. rewrite !total_check_category. lia.
Qed.

Lemma total_run reqs w :
  total (run reqs w) = total w + Z.of_nat (length (List.filter is_accepted reqs)).
Proof.
  revert w. induction reqs as [|req reqs IH]; intros w; simpl; [lia|].
  change (run reqs (serve req w)) with (fold_left (fun w r => serve r w) reqs (serve req w)) in IH.
  unfold run in IH. rewrite IH, total_serve.
  destruct (is_accepted req); simpl length; lia.
Qed.

Lemma is_successful_accepted req : is_successful req = true -> is_accepted req = true.
Proof.
  destruct req as [c m payload t1 t2| | | | |]; simpl; try discriminate.
  unfold reply. destruct m; [|discriminate].
  destruct payload; simpl; try discriminate. reflexivity.
Qed.

Lemma is_accepted_successful req :
  fails_late req = false -> is_accepted req = is_successful req.
Proof.
  destruct req as [c m payload t1 t2| | | | |]; simpl; try reflexivity.
  destruct m; [|reflexivity].
  destruct (reply c POST payload t1 t2) as [[]|] eqn:E;
    destruct (is_mapping payload) eqn:Hm; simpl; try congruence.
  unfold reply in E. rewrite receive_data_not_mapping in E by assumption.
  discriminate.
Qed.

Lemma filter_accepted_successful reqs :
  forallb (fun req => negb (fails_late req)) reqs = true ->
  List.filter is_accepted reqs = List.filter is_successful reqs.
Proof.
  induction reqs as [|req reqs IH]; [reflexivity|].
  intros [Hreq%negb_true_iff Hrest]%andb_true_iff.
  cbn [List.filter]. now rewrite (is_accepted_successful _ Hreq), (IH Hrest).
Qed.

(** X15. After any run of the server, in any order of the requests and
    any split over the categories, [total_messages] is the number of
    accepted records.  Each request adds exactly 1 when it is accepted and
    0 otherwise, so no request ever lowers the counter.  Every successful
    ingest is accepted, and when no handler raised after its critical
    section the counter is the number of successful ingests. *)
Theorem total_messages_exact (reqs : list request) :
  total (run reqs initial_world) = Z.of_nat (length (List.filter is_accepted reqs)) /\
  (forall req w, total (serve req w) = total w + (if is_accepted req then 1 else 0)) /\
  (forall req w, total w <= total (serve req w)) /\
  (forall req, is_successful req = true -> is_accepted req = true) /\
  (forallb (fun req => negb (fails_late req)) reqs = true ->
   total (run reqs initial_world) =
   Z.of_nat (length (List.filter is_successful reqs))).
Proof.
  split; [now rewrite total_run|].
  split; [exact total_serve|].
  split; [intros req w; rewrite total_serve; destruct (is_accepted req); lia|].
  split; [exact is_successful_accepted|].
  intros Hok. now rewrite total_run, (filter_accepted_successful _ Hok).
Qed.

Lemma total_messages_exact_witness :
  length (List.filter is_successful mixed_run) = 4%nat /\
  total (run mixed_run initial_world) = 4.
Proof.
  destruct (total_messages_exact mixed_run) as (_ & _ & _ & _ & Hcount).
  rewrite Hcount by (vm_compute; reflexivity).
  split; vm_compute; reflexivity.
Defined.

(** C2. One vessel POST of a mapping without [lat] is answered with the
    error object, so no ingest was successful, and yet [total_messages]
    is 1: the counter was raised inside the lock before the [print]
    raised. *)
Theorem failed_ingest_is_counted :
  let payload := JObj [("id", JStr "V1")] in
  let reqs := [PostData Vessel POST payload 5 6] in
  reply Vessel POST payload 5 6 = Return (Error400 TypeError) /\
  length (List.filter is_successful reqs) = 0%nat /\
  successful Vessel reqs = [] /\
  total (run reqs initial_world) = 1.
Proof. repeat split. Qed.

(** ** Liveness *)

Lemma online_check_category c c' now ss :
  online c' (check_category c now ss) =
  if bool_decide (c = c') then online c' ss && negb (stale c' now ss)
  else online c' ss.
Proof.
  unfold check_category, stale. case_bool_decide as Hc.
  - subst c'. destruct (last_seen c ss) as [seen|]; [|now rewrite andb_true_r].
    destruct (silent_for_more_than_30s now seen).
    + now rewrite online_set_online, andb_false_r.
    + now rewrite andb_true_r.
  - destruct (last_seen c ss) as [seen|]; [|reflexivity].
    destruct (silent_for_more_than_30s now seen); [|reflexivity].
    now apply online_set_online_other.
Qed.

Lemma last_seen_check_category c c' now ss :
  last_seen c' (check_category c now ss) = last_seen c' ss.
Proof.
  unfold check_category.
  destruct (last_seen c ss) as [seen|]; [|reflexivity].
  destruct (silent_for_more_than_30s now seen); [|reflexivity].
  apply last_seen_set_online.
Qed.

Lemma stale_check_category c c' now now' ss :
  stale c' now' (check_category c now ss) = stale c' now' ss.
Proof. unfold stale. now rewrite last_seen_check_category. Qed.

Lemma system_status_check_device_status now st :
  system_status (check_device_status now st) =
  check_category BaseStation now
    (check_category Buoy now (check_category Vessel now (system_status st))).
Proof. reflexivity. Qed.

Lemma online_check_device_status c now st :
  online c (system_status (check_device_status now st)) =
  online c (system_status st) && negb (stale c now (system_status st)).
Proof.
  rewrite system_status_check_device_status, !online_check_category,
    !stale_check_category.
  destruct c; simpl; try reflexivity;
    now destruct (online _ _), (stale _ _ _).
Qed.

Lemma last_seen_check_device_status c now st :
  last_seen c (system_status (check_device_status now st)) =
  last_seen c (system_status st).
Proof.
  now rewrite system_status_check_device_status, !last_seen_check_category.
Qed.

Lemma current_check_device_status c now st :
  current c (check_device_status now st) = current c st.
Proof. unfold check_device_status. now autorewrite with store. Qed.

Lemma total_check_device_status now st :
  total_messages (system_status (check_device_status now st)) =
  total_messages (system_status st).
Proof.
  now rewrite system_status_check_device_status, !total_check_category.
Qed.

(** Two stores with the same observations are the same store. *)
Lemma store_ext st st' :
  (forall c, history c st = history c st') ->
  (forall c, current c st = current c st') ->
  (forall c, online c (system_status st) = online c (system_status st')) ->
  (forall c, last_seen c (system_status st) = last_seen c (system_status st')) ->
  total_messages (system_status st) = total_messages (system_status st') ->
  st = st'.
Proof.
  intros Hh Hc Ho Hl Ht.
  pose proof (Hh Vessel); pose proof (Hh Buoy); pose proof (Hh BaseStation).
  pose proof (Hc Vessel); pose proof (Hc Buoy); pose proof (Hc BaseStation).
  pose proof (Ho Vessel); pose proof (Ho Buoy); pose proof (Ho BaseStation).
  pose proof (Hl Vessel); pose proof (Hl Buoy); pose proof (Hl BaseStation).
  destruct st as [? ? ? ? ? ? []], st' as [? ? ? ? ? ? []]; simpl in *.
  congruence.
Qed.

Lemma online_locked_update c c' data now st :
  online c' (system_status (locked_update c data now st)) =
  if bool_decide (c = c') then true else online c' (system_status st).
Proof.
  unfold locked_update, count_message, stamp_last_seen, mark_online, history_append.
  simpl. autorewrite with store.
  case_bool_decide as Hc.
  - subst c'. apply online_set_online.
  - now apply online_set_online_other.
Qed.

Lemma last_seen_locked_update c c' data now st :
  last_seen c' (system_status (locked_update c data now st)) =
  if bool_decide (c = c') then Some now else last_seen c' (system_status st).
Proof.
  unfold locked_update, count_message, stamp_last_seen, mark_online, history_append.
  simpl. autorewrite with store.
  case_bool_decide as Hc.
  - subst c'. apply last_seen_set_last_seen.
  - rewrite last_seen_set_last_seen_other by assumption. now autorewrite with store.
Qed.

Lemma current_locked_update c c' data now st :
  current c' (locked_update c data now st) =
  if bool_decide (c = c') then data else current c' st.
Proof.
  unfold locked_update, count_message, stamp_last_seen, mark_online, history_append.
  autorewrite with store.
  case_bool_decide as Hc.
  - subst c'. apply current_set_current.
  - rewrite current_set_current_other by assumption. now autorewrite with store.
Qed.

(** A POST that answers with the success object was a POST of a mapping. *)
Lemma receive_data_success c method payload clock_stamp clock_seen w ts w' :
  receive_data c method payload clock_stamp clock_seen w =
    (Return (Success200 ts), w') ->
  exists kvs,
    method = POST /\ payload = JObj kvs /\ ts = JIso clock_stamp /\
    log_line c (stamped payload clock_stamp) = Return tt /\
    globals w' = locked_update c (stamped payload clock_stamp) clock_seen (globals w) /\
    emitted w' = emitted w ++ [(update_event c, stamped payload clock_stamp)].
Proof.
  destruct method; [|discriminate].
  destruct payload; try discriminate.
  rewrite receive_data_mapping. intros [= Hr <-].
  destruct (log_line c _) as [[]|] eqn:Hlog; [|discriminate].
  injection Hr as <-. eauto 10.
Qed.

(** C3. When a category was last seen at [T] and is online, the status
    check at [T + 31s] puts it offline and the check at [T + 29s] leaves it
    online; exactly 30 seconds of silence are not enough, the check is
    strict.  A successful ingest into the category puts it online in the
    handler itself, whatever the state before. *)
Theorem liveness_transition (c : category) (st : store) (T : datetime) :
  last_seen c (system_status st) = Some T ->
  online c (system_status st) = true ->
  online c (system_status (check_device_status (T + 31 * 10 ^ 6) st)) = false /\
  online c (system_status (check_device_status (T + 29 * 10 ^ 6) st)) = true /\
  (forall now, online c (system_status (check_device_status now st)) = false <->
               30 * 10 ^ 6 < now - T) /\
  (forall payload clock_stamp clock_seen w ts w',
     receive_data c POST payload clock_stamp clock_seen w =
       (Return (Success200 ts), w') ->
     online c (system_status (globals w')) = true).
Proof.
  intros Hseen Hon.
  assert (Hcheck : forall now,
    online c (system_status (check_device_status now st)) =
    negb (30 * 10 ^ 6 <? now - T)).
  { intros now. rewrite online_check_device_status, Hon. unfold stale.
    now rewrite Hseen. }
  repeat split.
  - rewrite Hcheck. destruct (Z.ltb_spec (30 * 10 ^ 6) (T + 31 * 10 ^ 6 - T)); [reflexivity|lia].
  - rewrite Hcheck. destruct (Z.ltb_spec (30 * 10 ^ 6) (T + 29 * 10 ^ 6 - T)); [lia|reflexivity].
  - rewrite Hcheck. destruct (Z.ltb_spec (30 * 10 ^ 6) (now - T)); [trivial|discriminate].
  - rewrite Hcheck. destruct (Z.ltb_spec (30 * 10 ^ 6) (now - T)); [reflexivity|lia].
  - intros payload t1 t2 w ts w' (kvs & _ & _ & _ & _ & -> & _)%receive_data_success.
    rewrite online_locked_update. now rewrite bool_decide_eq_true_2.
Qed.

Lemma liveness_transition_witness :
  let st := globals (run [vessel_reading 7] initial_world) in
  last_seen Vessel (system_status st) = Some 7 /\
  online Vessel (system_status st) = true /\
  online Vessel (system_status (check_device_status (7 + 31 * 10 ^ 6) st)) = false /\
  online Vessel (system_status (check_device_status (7 + 29 * 10 ^ 6) st)) = true.
Proof.
  intros st.
  assert (Hseen : last_seen Vessel (system_status st) = Some 7) by reflexivity.
  assert (Hon : online Vessel (system_status st) = true) by reflexivity.
  destruct (liveness_transition Vessel st 7 Hseen Hon) as (Hoff & Hstay & _).
  repeat split; assumption.
Defined.

(** C8. The status check is idempotent: a second check at the same instant
    changes nothing.  It leaves alone a category that is offline already or
    was never seen, and it puts offline exactly the categories that were
    seen more than 30 seconds before the check; histories, latest records,
    [last_seen] and the counter are not touched. *)
Theorem check_device_status_idempotent (now : datetime) (st : store) :
  let st' := check_device_status now st in
  check_device_status now st' = st' /\
  (forall c, online c (system_status st) = false \/
             last_seen c (system_status st) = None ->
             online c (system_status st') = online c (system_status st)) /\
  ((forall c, online c (system_status st) = false \/
              last_seen c (system_status st) = None) -> st' = st) /\
  (forall c, online c (system_status st') = false <->
             online c (system_status st) = false \/
             exists seen, last_seen c (system_status st) = Some seen /\
                          30 * 10 ^ 6 < now - seen) /\
  (forall c, last_seen c (system_status st') = last_seen c (system_status st) /\
             history c st' = history c st /\ current c st' = current c st) /\
  total_messages (system_status st') = total_messages (system_status st).
Proof.
  intros st'. subst st'.
  assert (Hnoop : forall c, online c (system_status st) = false \/
                            last_seen c (system_status st) = None ->
    online c (system_status (check_device_status now st)) =
    online c (system_status st)).
  { intros c H. rewrite online_check_device_status. unfold stale.
    destruct H as [-> | ->]; [reflexivity | apply andb_true_r]. }
  split; [|split; [exact Hnoop|split; [|split; [|split]]]].
  - apply store_ext; intros;
      rewrite ?history_check_device_status, ?current_check_device_status,
        ?last_seen_check_device_status, ?total_check_device_status; trivial.
    rewrite !online_check_device_status. unfold stale.
    rewrite last_seen_check_device_status.
    now destruct (online c _), (last_seen c _) as [seen|];
      try destruct (silent_for_more_than_30s now seen).
  - intros Hall. apply store_ext; intros;
      rewrite ?history_check_device_status, ?current_check_device_status,
        ?last_seen_check_device_status, ?total_check_device_status; auto.
  - intros c. rewrite online_check_device_status. unfold stale.
    destruct (online c (system_status st)); simpl.
    + destruct (last_seen c (system_status st)) as [seen|]; simpl.
      * unfold silent_for_more_than_30s.
        destruct (Z.ltb_spec (30 * 10 ^ 6) (now - seen)); simpl; split;
          try discriminate; eauto.
        intros [|(seen' & [= <-] & ?)]; [discriminate | lia].
      * split; [discriminate|]. now intros [|(seen & ? & _)].
    + split; auto.
  - intros c. now rewrite last_seen_check_device_status,
      history_check_device_status, current_check_device_status.
  - apply total_check_device_status.
Qed.

Lemma check_device_status_idempotent_witness :
  let st := globals (run [vessel_reading 7] initial_world) in
  let st' := check_device_status (7 + 31 * 10 ^ 6) st in
  online Vessel (system_status st) = true /\
  last_seen Buoy (system_status st) = None /\
  online Vessel (system_status st') = false /\
  online Buoy (system_status st') = online Buoy (system_status st) /\
  check_device_status (7 + 31 * 10 ^ 6) st' = st'.
Proof.
  intros st st'.
  destruct (check_device_status_idempotent (7 + 31 * 10 ^ 6) st)
    as (Hidem & Hnoop & _ & Hoff & _).
  split; [reflexivity|]. split; [reflexivity|].
  split; [apply Hoff; right; exists 7; split; [reflexivity | lia]|].
  split; [apply Hnoop; right; reflexivity | exact Hidem].
Defined.

(** ** Rejected and framed ingests *)

(** C5. A POST whose payload is not a mapping answers with the error
    object (the [TypeError] of the stamping, status 400) and leaves the
    whole state as it was: the globals, hence [total_messages], every
    history, latest record, online flag and [last_seen], and nothing is
    emitted to the dashboards. *)
Theorem not_a_mapping_rejected (c : category) (payload : json)
  (clock_stamp clock_seen : datetime) (w : world) :
  is_mapping payload = false ->
  let out := receive_data c POST payload clock_stamp clock_seen w in
  fst out = Return (Error400 TypeError) /\
  snd out = w /\
  globals (snd out) = globals w /\
  emitted (snd out) = emitted w.
Proof.
  intros Hpayload out. subst out.
  now rewrite receive_data_not_mapping.
Qed.

Lemma not_a_mapping_rejected_witness :
  let w := run mixed_run initial_world in
  let out := receive_vessel_data POST (JStr "not-a-mapping") 50 51 w in
  is_mapping (JStr "not-a-mapping") = false /\
  fst out = Return (Error400 TypeError) /\ snd out = w.
Proof.
  intros w out.
  destruct (not_a_mapping_rejected Vessel (JStr "not-a-mapping") 50 51 w eq_refl)
    as (Hreply & Hsame & _).
  split; [reflexivity | split; [exact Hreply | exact Hsame]].
Defined.

(** C10. An ingest into one category leaves the two other categories as
    they were: their history, latest record, online flag and [last_seen]
    are the same before and after, whatever the handler answers. *)
Theorem ingest_frame (c c' : category) (method : http_method) (payload : json)
  (clock_stamp clock_seen : datetime) (w : world) :
  c <> c' ->
  let st' := globals (snd (receive_data c method payload clock_stamp clock_seen w)) in
  history c' st' = history c' (globals w) /\
  current c' st' = current c' (globals w) /\
  online c' (system_status st') = online c' (system_status (globals w)) /\
  last_seen c' (system_status st') = last_seen c' (system_status (globals w)).
Proof.
  intros Hc st'. subst st'.
  destruct method; [|now rewrite receive_data_options].
  destruct payload; try (now rewrite receive_data_not_mapping).
  rewrite receive_data_mapping. cbn [snd globals].
  rewrite history_locked_update, current_locked_update, online_locked_update,
    last_seen_locked_update.
  now rewrite bool_decide_eq_false_2.
Qed.

Lemma ingest_frame_witness :
  let w := run mixed_run initial_world in
  let st' := globals (snd (receive_buoy_data POST (JObj []) 60 61 w)) in
  Buoy <> Vessel /\
  history Vessel st' = history Vessel (globals w) /\
  current Vessel st' = current Vessel (globals w) /\
  online Vessel (system_status st') = online Vessel (system_status (globals w)) /\
  last_seen Vessel (system_status st') = last_seen Vessel (system_status (globals w)).
Proof.
  intros w st'.
  assert (Hne : Buoy <> Vessel) by discriminate.
  split; [exact Hne|].
  exact (ingest_frame Buoy Vessel POST (JObj []) 60 61 w Hne).
Defined.

(** ** Timestamps of an ingest *)

(** A successful handler read the clock twice, one second apart. *)
Lemma last_seen_not_the_stamp :
  let payload := JObj [("id", JStr "V1"); ("lat", JFloat 0); ("lon", JFloat 0)] in
  let out := receive_vessel_data POST payload 0 1000000 initial_world in
  fst out = Return (Success200 (JIso 0)) /\
  getitem (current Vessel (globals (snd out))) "server_timestamp" = Return (JIso 0) /\
  last_seen Vessel (system_status (globals (snd out))) = Some 1000000 /\
  last_seen Vessel (system_status (globals (snd out))) <> Some 0.
Proof. repeat split. discriminate. Qed.

(** C7, amended. A successful ingest answers with the stamp it put in the
    stored record, which is the first reading of the clock: the latest
    record and the newest history entry carry it as [server_timestamp].
    [last_seen] of the category is the second reading of the clock, made
    inside the critical section; it is the stamp exactly when the two
    readings are equal. *)
Theorem ingest_timestamps (c : category) (payload : json)
  (clock_stamp clock_seen : datetime) (w : world) (ts : json) (w' : world) :
  receive_data c POST payload clock_stamp clock_seen w =
    (Return (Success200 ts), w') ->
  ts = JIso clock_stamp /\
  getitem (current c (globals w')) "server_timestamp" = Return ts /\
  last (history c (globals w')) = Some (current c (globals w')) /\
  last_seen c (system_status (globals w')) = Some clock_seen /\
  (last_seen c (system_status (globals w')) = Some clock_stamp <->
   clock_seen = clock_stamp).
Proof.
  intros (kvs & _ & -> & -> & _ & -> & _)%receive_data_success.
  rewrite current_locked_update, history_locked_update, last_seen_locked_update,
    !bool_decide_eq_true_2 by reflexivity.
  repeat split; try congruence.
  - simpl. now rewrite dict_get_set.
  - unfold deque_append.
    destruct (Nat.ltb_spec maxlen (length (history c (globals w) ++ [stamped (JObj kvs) clock_stamp])))
      as [Hfull|_]; [|apply last_snoc].
    destruct (history c (globals w)) as [|x h].
    + unfold maxlen in Hfull. simpl in Hfull. lia.
    + apply last_snoc.
Qed.

Lemma ingest_timestamps_witness :
  let payload := JObj [("id", JStr "V1"); ("lat", JFloat 0); ("lon", JFloat 0)] in
  let out := receive_vessel_data POST payload 0 1000000 initial_world in
  out = (Return (Success200 (JIso 0)), snd out) /\
  last_seen Vessel (system_status (globals (snd out))) = Some 1000000.
Proof.
  intros payload out.
  assert (Hout : out = (Return (Success200 (JIso 0)), snd out)) by reflexivity.
  split; [exact Hout|].
  destruct (ingest_timestamps Vessel payload 0 1000000 initial_world _ _ Hout)
    as (_ & _ & _ & Hseen & _).
  exact Hseen.
Defined.

(** ** The limit of a history read *)

(** A negative limit is not refused: it cuts records off the old end and
    answers with the rest.  Limit zero answers with the whole history,
    which is neither a refusal nor the default window. *)
Lemma negative_limit_returns_records :
  get_vessel_history (Some (-1)) three_records =
    [JObj [("n", JInt 2)]; JObj [("n", JInt 3)]] /\
  get_vessel_history (Some 0) three_records = history Vessel three_records /\
  get_vessel_history (Some 0) (globals (run (vessel_readings 101) initial_world)) <>
  get_vessel_history None (globals (run (vessel_readings 101) initial_world)).
Proof.
  split; [reflexivity|]. split; [reflexivity|].
  intros H. apply (f_equal length) in H. vm_compute in H. discriminate.
Qed.

Lemma slice_from_negative {A} (n : Z) (l : list A) :
  0 < n -> slice_from (- n) l = last_n (Z.to_nat n) l.
Proof.
  intros Hn. unfold slice_from, last_n.
  destruct (Z.ltb_spec (- n) 0); [|lia]. f_equal. lia.
Qed.

Lemma slice_from_positive {A} (n : Z) (l : list A) :
  0 <= n -> slice_from n l = drop (Z.to_nat n) l.
Proof.
  intros Hn. unfold slice_from.
  destruct (Z.ltb_spec n 0); [lia|].
  destruct (Z.min_spec n (Z.of_nat (length l))) as [[_ ->]|[Hle ->]]; [reflexivity|].
  rewrite Nat2Z.id, !drop_ge; trivial; lia.
Qed.

(** C6, amended. A history read without a usable [limit] argument takes
    100.  A positive limit answers with the last [limit] records (all of
    them when there are fewer), oldest first.  Nothing is refused: limit
    zero answers with the whole history and a negative limit [-k] answers
    with the history less its [k] oldest records. *)
Theorem history_limit (c : category) (arg : option Z) (st : store) :
  let limit := limit_arg arg in
  limit_arg None = 100 /\
  (0 < limit -> get_history c arg st = last_n (Z.to_nat limit) (history c st)) /\
  (limit = 0 -> get_history c arg st = history c st) /\
  (limit < 0 -> get_history c arg st = drop (Z.to_nat (- limit)) (history c st)).
Proof.
  intros limit. unfold get_history. fold limit.
  split; [reflexivity|]. split; [|split].
  - apply slice_from_negative.
  - intros Hzero. rewrite Hzero. now rewrite (slice_from_positive 0).
  - intros Hneg. apply slice_from_positive. lia.
Qed.

Lemma history_limit_witness :
  get_history Vessel None three_records = history Vessel three_records /\
  get_history Vessel (Some 2) three_records =
    [JObj [("n", JInt 2)]; JObj [("n", JInt 3)]] /\
  get_history Vessel (Some (-2)) three_records = [JObj [("n", JInt 3)]].
Proof.
  destruct (history_limit Vessel None three_records) as (_ & Hdefault & _ & _).
  destruct (history_limit Vessel (Some 2) three_records) as (_ & Hpos & _ & _).
  destruct (history_limit Vessel (Some (-2)) three_records) as (_ & _ & _ & Hneg).
  rewrite Hdefault, Hpos, Hneg by (simpl; lia).
  repeat split.
Defined.

(** ** Ingest of a mapping that the log line cannot format *)

(** C4. A vessel payload without [lat] is a mapping, yet the handler
    answers with the error object: [format(None, '.4f')] raises in the
    [print] after the record was stored, counted and emitted. *)
Theorem vessel_without_position_fails :
  let payload := JObj [("id", JStr "V1")] in
  let data := JObj [("id", JStr "V1"); ("server_timestamp", JIso 5)] in
  let out := receive_vessel_data POST payload 5 6 initial_world in
  is_mapping payload = true /\
  fst out = Return (Error400 TypeError) /\
  history Vessel (globals (snd out)) = [data] /\
  current Vessel (globals (snd out)) = data /\
  total (snd out) = 1 /\
  emitted (snd out) = [("vessel_update", data)].
Proof. repeat split. Qed.

(** The base station handler formats nothing and reads its field with a
    default: it answers a mapping without [messages_relayed] with the
    success object. *)
Lemma receive_basestation_data_without_field kvs clock_stamp clock_seen w :
  dict_get "messages_relayed" kvs = None ->
  fst (receive_basestation_data POST (JObj kvs) clock_stamp clock_seen w) =
  Return (Success200 (JIso clock_stamp)).
Proof.
  intros Hnone. unfold receive_basestation_data. rewrite receive_data_mapping.
  cbn [fst log_line logged_field stamped get_default].
  now rewrite dict_get_set_other, Hnone by discriminate.
Qed.

(** A handler answers a mapping with the success object exactly when its
    log line can be printed. *)
Lemma receive_data_reply c kvs clock_stamp clock_seen w :
  fst (receive_data c POST (JObj kvs) clock_stamp clock_seen w) =
  Return match log_line c (stamped (JObj kvs) clock_stamp) with
         | Return _ => Success200 (JIso clock_stamp)
         | Raise e => Error400 e
         end.
Proof. now rewrite receive_data_mapping. Qed.

(** ** Readers never see half an update *)

Lemma globals_receive_data c method payload clock_stamp clock_seen w :
  globals (snd (receive_data c method payload clock_stamp clock_seen w)) =
  match method with
  | POST => if is_mapping payload
            then locked_update c (stamped payload clock_stamp) clock_seen (globals w)
            else globals w
  | OPTIONS => globals w
  end.
Proof.
  destruct method; [|reflexivity].
  destruct payload; try reflexivity.
  now rewrite receive_data_mapping.
Qed.

Lemma globals_serve req w w' :
  globals w = globals w' -> globals (serve req w) = globals (serve req w').
Proof.
  intros Hw. destruct req; simpl; trivial.
  - now rewrite !globals_receive_data, Hw.
  - now rewrite Hw.
Qed.

Section Interleavings.
Variable clients : list client.

Lemma whole_initial : whole clients initial_store.
Proof. exists []. split; [constructor | reflexivity]. Qed.

Lemma whole_serve req st e :
  asked clients req -> whole clients st ->
  whole clients (globals (serve req {| globals := st; emitted := e |})).
Proof.
  intros Hreq (reqs & Hall & ->). exists (reqs ++ [req]). split.
  - apply Forall_app. split; [exact Hall | now constructor].
  - rewrite run_snoc. now apply globals_serve.
Qed.

Lemma outside_post_thread c payload clock_stamp clock_seen :
  In (ClientPost c payload clock_stamp clock_seen) clients ->
  outside clients (post_thread c payload clock_stamp clock_seen).
Proof.
  intros Hin. destruct payload; try constructor.
  unfold post_thread, setitem.
  apply (outside_writer clients
           [Write _; Write _; Write _; Write _; Write _] [Emit _ _]).
  - repeat constructor.
  - intros st Hst.
    apply (whole_serve (PostData c POST (JObj kvs) clock_stamp clock_seen) st [])
      in Hst; [|eexists; split; [exact Hin | now left]].
    unfold serve in Hst. rewrite receive_data_mapping in Hst. exact Hst.
  - repeat constructor.
Qed.

Lemma outside_checker_thread times :
  (forall t, In t times -> asked clients (StatusCheck t)) ->
  outside clients (checker_thread times).
Proof.
  induction times as [|t times IH]; intros Hasked; [constructor|].
  apply (outside_writer clients [Write _; Write _; Write _] (checker_thread times)).
  - repeat constructor.
  - intros st Hst.
    apply (whole_serve (StatusCheck t) st []) in Hst; [exact Hst|].
    apply Hasked. now left.
  - apply IH. intros t' Ht'. apply Hasked. now right.
Qed.

Lemma outside_thread_of cl : In cl clients -> outside clients (thread_of cl).
Proof.
  intros Hin. destruct cl as [c payload t1 t2| | |times]; simpl.
  - now apply outside_post_thread.
  - now apply (outside_reader clients ReadAllLatest []); constructor.
  - now apply (outside_reader clients ReadStatus []); constructor.
  - apply outside_checker_thread. intros t Ht.
    exists (ClientChecker times). split; [exact Hin|]. simpl. now apply in_map.
Qed.

Lemma lock_invariant_initial : lock_invariant clients (initial_config clients).
Proof.
  split; [constructor|]. simpl. split; [apply whole_initial|].
  apply Forall_forall. intros code (cl & <- & Hcl)%list_elem_of_In%in_map_iff.
  now apply outside_thread_of.
Qed.

Lemma outside_insert (threads : list (list instr)) i h code k :
  threads !! h = Some code ->
  (forall j code', j <> h -> threads !! j = Some code' -> outside clients code') ->
  outside clients k ->
  forall j code', j <> h -> <[i := k]> threads !! j = Some code' ->
                  outside clients code'.
Proof.
  intros Hh Hothers Hk j code' Hj Hlook.
  destruct (decide (i = j)) as [->|Hij].
  - assert (Hlen : (j < length threads)%nat).
    { apply lookup_lt_Some in Hlook. now rewrite length_insert in Hlook. }
    rewrite list_lookup_insert_eq in Hlook by assumption. congruence.
  - rewrite list_lookup_insert_ne in Hlook by assumption. eauto.
Qed.

Lemma lock_invariant_step i cfg cfg' :
  lock_invariant clients cfg -> step_thread i cfg = Some cfg' ->
  lock_invariant clients cfg'.
Proof.
  intros [Hobs Hlock] Hstep. unfold step_thread in Hstep.
  destruct (pool cfg !! i) as [[|ins rest]|] eqn:Hi; try discriminate.
  assert (Hlen : (i < length (pool cfg))%nat) by (apply lookup_lt_is_Some; eauto).
  destruct (holder cfg) as [h|] eqn:Hh.
  - destruct Hlock as [(code & Hcode & Hinside) Hothers].
    destruct (decide (i = h)) as [->|Hne].
    + (* the holder moves *)
      rewrite Hi in Hcode. injection Hcode as <-.
      inversion Hinside as [ws k Hws Hwhole Hk Heq | r k Hr Hwhole Hk Heq].
      * destruct ws as [|w ws]; simpl in Heq; injection Heq as <- <-.
        -- injection Hstep as <-. split; [exact Hobs|]. simpl.
           split; [exact Hwhole|].
           apply Forall_lookup. intros j code' Hj.
           destruct (decide (h = j)) as [->|Hhj].
           ++ rewrite list_lookup_insert_eq in Hj by assumption. congruence.
           ++ rewrite list_lookup_insert_ne in Hj by assumption. eauto.
        -- apply Forall_cons in Hws as [Hw Hws].
           destruct w; try contradiction. injection Hstep as <-.
           split; [exact Hobs|]. simpl. split.
           ++ eexists. split; [now apply list_lookup_insert_eq|].
              now constructor.
           ++ intros j code' Hj. now rewrite list_lookup_insert_ne; eauto.
      * subst ins rest.
        assert (Hrest : inside clients (globals (shared cfg)) (Release :: k))
          by now apply (inside_writer clients _ [] k).
        destruct r; try contradiction; injection Hstep as <-.
        all: split; simpl;
          [ apply Forall_app; split; [exact Hobs|]; repeat constructor;
            eexists; split; [exact Hwhole | reflexivity]
          | split; [eexists; split; [now apply list_lookup_insert_eq | exact Hrest]|];
            intros j code' Hj; now rewrite list_lookup_insert_ne; eauto ].
    + (* another thread moves while the lock is held *)
      assert (Hout : outside clients (ins :: rest)) by eauto.
      inversion Hout as [|event data k Hk Heq| |]; subst; try discriminate.
      injection Hstep as <-. split; [exact Hobs|]. simpl. split.
      * exists code. split; [now rewrite list_lookup_insert_ne | exact Hinside].
      * now apply (outside_insert _ _ _ code).
  - destruct Hlock as [Hwhole Hall].
    assert (Hout : outside clients (ins :: rest))
      by exact (Forall_lookup_1 _ _ _ _ Hall Hi).
    inversion Hout as [|event data k Hk Heq|ws k Hws Hpre Hk Heq|r k Hr Hk Heq];
      subst; injection Hstep as <-; (split; [exact Hobs|]); simpl.
    + split; [exact Hwhole | now apply Forall_insert].
    + split.
      * eexists. split; [now apply list_lookup_insert_eq|].
        constructor; auto.
      * intros j code' Hj. rewrite list_lookup_insert_ne by congruence.
        intros Hlook. exact (Forall_lookup_1 _ _ _ _ Hall Hlook).
    + split.
      * eexists. split; [now apply list_lookup_insert_eq|].
        now apply inside_reader.
      * intros j code' Hj. rewrite list_lookup_insert_ne by congruence.
        intros Hlook. exact (Forall_lookup_1 _ _ _ _ Hall Hlook).
Qed.

Lemma lock_invariant_interleave schedule cfg :
  lock_invariant clients cfg -> lock_invariant clients (interleave schedule cfg).
Proof.
  revert cfg. induction schedule as [|i schedule IH]; intros cfg Hinv; [exact Hinv|].
  apply IH. unfold turn.
  destruct (step_thread i cfg) as [cfg'|] eqn:Hstep; [|exact Hinv].
  exact (lock_invariant_step _ _ _ Hinv Hstep).
Qed.

(** In a whole store the latest record of a category and its
    [last_seen] are those of the last POST that was accepted for it. *)
Lemma whole_same_ingest st c :
  whole clients st ->
  same_ingest clients c (current c st) (last_seen c (system_status st)).
Proof.
  intros (reqs & Hall & ->).
  induction reqs as [|req reqs IH] using rev_ind.
  - left. now destruct c.
  - apply Forall_app in Hall as [Hall Hreq]. specialize (IH Hall).
    apply Forall_inv in Hreq as (cl & Hcl & Hin).
    rewrite run_snoc.
    destruct req as [c' m payload t1 t2| | | | |now]; try exact IH.
    + assert (cl = ClientPost c' payload t1 t2 /\ m = POST) as [-> ->].
      { destruct cl; simpl in Hin.
        - destruct Hin as [[= -> -> -> -> ->]|[]]. now split.
        - destruct Hin.
        - destruct Hin.
        - apply in_map_iff in Hin as (? & [=] & _). }
      unfold serve. destruct payload;
        try (now rewrite receive_data_not_mapping).
      rewrite receive_data_mapping. cbn [snd globals].
      rewrite current_locked_update, last_seen_locked_update.
      case_bool_decide as Hc; [subst c'|exact IH].
      right. eauto 10.
    + unfold serve. cbn [globals].
      now rewrite current_check_device_status, last_seen_check_device_status.
Qed.
End Interleavings.

(** While the writer is between its write of the latest record and its
    write of [last_seen], the store is in a state no reader may see, and a
    reader that asks for the lock does not get it. *)
Lemma reader_waits_for_writer :
  let cfg := interleave [0; 0; 0]%nat (initial_config vessel_and_readers) in
  current Vessel (globals (shared cfg)) =
    JObj [("id", JStr "V1"); ("server_timestamp", JIso 5)] /\
  last_seen Vessel (system_status (globals (shared cfg))) = None /\
  holder cfg = Some 0%nat /\
  step_thread 1 cfg = None /\
  step_thread 2 cfg = None.
Proof. repeat split. Qed.

(** C9. In every interleaving of POST handlers, [get_all_latest] and
    [get_system_status] readers and the background check, what a reader
    gets back is the state some sequence of whole requests of the clients
    leaves behind, never a state from the middle of a handler.  So in what
    [get_all_latest] returns, the latest record of a category is one
    ingested record as it was stamped and [last_seen] of that category
    belongs to the very same ingest (or nothing was ingested yet). *)
Theorem no_torn_read (clients : list client) (schedule : list nat) :
  let cfg := interleave schedule (initial_config clients) in
  Forall (whole_observation clients) (observed cfg) /\
  (forall a c, In (SawAllLatest a) (observed cfg) ->
     same_ingest clients c (latest_in c a) (last_seen c (al_system_status a))).
Proof.
  intros cfg.
  destruct (lock_invariant_interleave clients schedule _
              (lock_invariant_initial clients)) as [Hobs _].
  fold cfg in Hobs. split; [exact Hobs|].
  intros a c Hin.
  rewrite Forall_forall in Hobs.
  apply list_elem_of_In, Hobs in Hin as (st & Hst & ->).
  replace (latest_in c (get_all_latest st)) with (current c st) by now destruct c.
  now apply whole_same_ingest.
Qed.

Lemma no_torn_read_witness :
  let data := JObj [("id", JStr "V1"); ("server_timestamp", JIso 5)] in
  let cfg := interleave reader_in_between (initial_config vessel_and_readers) in
  map (fun o => match o with
                | SawAllLatest a =>
                    (al_vessel a, vessel_last_seen (al_system_status a))
                | SawStatus s => (JNull, vessel_last_seen s)
                end) (observed cfg) =
    [(JObj [], None); (data, Some 6)] /\
  same_ingest vessel_and_readers Vessel data (Some 6).
Proof.
  intros data cfg.
  assert (Hobs : exists a,
    observed cfg = [SawAllLatest (get_all_latest initial_store); SawAllLatest a] /\
    latest_in Vessel a = data /\
    last_seen Vessel (al_system_status a) = Some 6).
  { eexists. vm_compute. repeat split. }
  destruct Hobs as (a & Hobs & Hlatest & Hseen).
  split; [rewrite Hobs; simpl; rewrite <- Hlatest, <- Hseen; reflexivity|].
  destruct (no_torn_read vessel_and_readers reader_in_between) as [_ Hsame].
  rewrite <- Hlatest, <- Hseen. apply Hsame.
  fold cfg. rewrite Hobs. right. left. reflexivity.
Defined.

(** ** Latest records, sightings and broadcasts over a run *)

Lemma current_serve c req w :
  current c (globals (serve req w)) =
  match accepted_by c req with
  | Some data => data
  | None => current c (globals w)
  end.
Proof.
  destruct req as [c' m payload t1 t2| | | | |current_time]; unfold serve, accepted_by;
    try reflexivity; try apply current_check_device_status.
  destruct m; [|reflexivity].
  destruct payload; try reflexivity.
  rewrite receive_data_mapping. cbn [snd globals is_mapping andb].
  rewrite current_locked_update. now destruct (bool_decide (c' = c)).
Qed.

Lemma last_seen_serve c req w :
  last_seen c (system_status (globals (serve req w))) =
  match seen_by c req with
  | Some t => Some t
  | None => last_seen c (system_status (globals w))
  end.
Proof.
  destruct req as [c' m payload t1 t2| | | | |current_time]; unfold serve, seen_by;
    try reflexivity; try apply last_seen_check_device_status.
  destruct m; [|reflexivity].
  destruct payload; try reflexivity.
  rewrite receive_data_mapping. cbn [snd globals is_mapping andb].
  rewrite last_seen_locked_update. now destruct (bool_decide (c' = c)).
Qed.

Lemma omap_snoc {A B} (f : A -> option B) l x :
  omap f (l ++ [x]) = omap f l ++ match f x with Some y => [y] | None => [] end.
Proof. rewrite omap_app. simpl. now destruct (f x). Qed.

Lemma last_app_option {A} (l : list A) (o : option A) :
  last (l ++ match o with Some y => [y] | None => [] end) =
  match o with Some y => Some y | None => last l end.
Proof. destruct o; [apply last_snoc | now rewrite app_nil_r]. Qed.

Lemma current_run c reqs :
  current c (globals (run reqs initial_world)) =
  match last (accepted c reqs) with Some data => data | None => JObj [] end.
Proof.
  induction reqs as [|req reqs IH] using rev_ind; [now destruct c|].
  rewrite run_snoc, current_serve, IH. unfold accepted.
  rewrite omap_snoc, last_app_option. now destruct (accepted_by c req).
Qed.

Lemma last_seen_run c reqs :
  last_seen c (system_status (globals (run reqs initial_world))) =
  last (omap (seen_by c) reqs).
Proof.
  induction reqs as [|req reqs IH] using rev_ind; [now destruct c|].
  rewrite run_snoc, last_seen_serve, IH.
  rewrite omap_snoc, last_app_option. now destruct (seen_by c req).
Qed.

Lemma last_last_n {A} n (l : list A) : (0 < n)%nat -> last (last_n n l) = last l.
Proof.
  intros Hn. unfold last_n.
  destruct l as [|x l] using rev_ind; [reflexivity|].
  rewrite length_app; change (length [x]) with 1%nat.
  rewrite drop_app_le by lia. now rewrite !last_snoc.
Qed.

(** X1. After any run, what [get_latest] answers for a category is the
    record accepted last for it, the same record the history ends with;
    it is the empty object as long as nothing was accepted. *)
Theorem latest_is_newest (reqs : list request) (c : category) :
  let st := globals (run reqs initial_world) in
  get_latest c st =
    match last (accepted c reqs) with Some data => data | None => JObj [] end /\
  last (history c st) = last (accepted c reqs) /\
  forall arg, 0 <= limit_arg arg ->
    last (get_history c arg st) = last (accepted c reqs).
Proof.
  intros st. subst st. unfold get_latest.
  assert (Hlast : last (history c (globals (run reqs initial_world))) =
                  last (accepted c reqs)).
  { rewrite history_run. apply last_last_n. unfold maxlen. lia. }
  split; [apply current_run|]. split; [exact Hlast|].
  intros arg Harg. rewrite <- Hlast. unfold get_history.
  destruct (Z.eq_dec (limit_arg arg) 0) as [->|Hnz].
  - now rewrite (slice_from_positive 0).
  - rewrite slice_from_negative by lia. apply last_last_n. lia.
Qed.

Lemma latest_is_newest_witness :
  let st := globals (run mixed_run initial_world) in
  get_latest Vessel st =
    JObj [("id", JInt 2); ("lat", JInt 12); ("lon", JInt 77);
          ("server_timestamp", JIso 2)] /\
  last (get_history Vessel None st) = Some (get_latest Vessel st).
Proof.
  intros st.
  destruct (latest_is_newest mixed_run Vessel) as (Hlatest & _ & Hread).
  fold st in Hlatest, Hread.
  rewrite (Hread None) by (simpl; lia). rewrite Hlatest.
  split; reflexivity.
Defined.

Lemma accepted_by_seen_by c req :
  accepted_by c req = None <-> seen_by c req = None.
Proof.
  destruct req as [c' m payload t1 t2| | | | |]; simpl; try tauto.
  destruct m; [|tauto].
  destruct (is_mapping payload && bool_decide (c' = c)); split; congruence.
Qed.

Lemma accepted_nil_seen_nil c reqs :
  accepted c reqs = [] <-> omap (seen_by c) reqs = [].
Proof.
  unfold accepted. induction reqs as [|req reqs IH]; [tauto|].
  change (omap ?f (req :: reqs))
    with (match f req with Some y => y :: omap f reqs | None => omap f reqs end).
  pose proof (accepted_by_seen_by c req) as Hreq.
  destruct (accepted_by c req), (seen_by c req); try tauto;
    try (split; discriminate).
  - destruct Hreq as [_ Hreq]. now specialize (Hreq eq_refl).
  - destruct Hreq as [Hreq _]. now specialize (Hreq eq_refl).
Qed.

Lemma online_serve_false c req w :
  accepted_by c req = None ->
  online c (system_status (globals w)) = false ->
  online c (system_status (globals (serve req w))) = false.
Proof.
  intros Hacc Hoff.
  destruct req as [c' m payload t1 t2| | | | |current_time]; unfold serve;
    try exact Hoff.
  - rewrite globals_receive_data. destruct m; [|exact Hoff].
    simpl in Hacc. destruct (is_mapping payload); [|exact Hoff].
    rewrite online_locked_update.
    destruct (bool_decide (c' = c)); [discriminate | exact Hoff].
  - cbn [globals]. rewrite online_check_device_status, Hoff. reflexivity.
Qed.

(** X2. After any run, [last_seen] of a category is the second clock
    reading of the last POST accepted for it, and it is unset exactly when
    no record was accepted for the category; such a category is offline,
    its history is empty and its latest record is the empty object.  So
    a category that shows online has been seen. *)
Theorem seen_iff_accepted (reqs : list request) (c : category) :
  let st := globals (run reqs initial_world) in
  last_seen c (system_status st) = last (omap (seen_by c) reqs) /\
  (last_seen c (system_status st) = None <-> accepted c reqs = []) /\
  (accepted c reqs = [] ->
   online c (system_status st) = false /\ history c st = [] /\
   current c st = JObj []) /\
  (online c (system_status st) = true ->
   exists t, last_seen c (system_status st) = Some t).
Proof.
  intros st. subst st.
  assert (Hnone : last_seen c (system_status (globals (run reqs initial_world))) = None
                  <-> accepted c reqs = []).
  { rewrite last_seen_run, accepted_nil_seen_nil.
    destruct (omap (seen_by c) reqs) as [|t l] using rev_ind; [tauto|].
    rewrite last_snoc. split; [discriminate|]. now destruct l. }
  assert (Hoff : accepted c reqs = [] ->
                 online c (system_status (globals (run reqs initial_world))) = false).
  { clear Hnone. unfold accepted. induction reqs as [|req reqs IH] using rev_ind.
    - now destruct c.
    - rewrite omap_snoc. intros [Hreqs Hreq]%app_eq_nil.
      rewrite run_snoc. apply online_serve_false; [|now apply IH].
      now destruct (accepted_by c req). }
  split; [apply last_seen_run|]. split; [exact Hnone|]. split.
  - intros Hacc. split; [now apply Hoff|].
    rewrite history_run, current_run, Hacc. now split.
  - intros Hon.
    destruct (last_seen c _) as [t|]; [eauto|].
    destruct Hnone as [Hacc _]. specialize (Hoff (Hacc eq_refl)). congruence.
Qed.

Lemma seen_iff_accepted_witness :
  let st := globals (run [vessel_reading 1; StatusCheck 5] initial_world) in
  accepted Buoy [vessel_reading 1; StatusCheck 5] = [] /\
  online Buoy (system_status st) = false /\
  last_seen Buoy (system_status st) = None /\
  last_seen Vessel (system_status st) = Some 1.
Proof.
  intros st.
  destruct (seen_iff_accepted [vessel_reading 1; StatusCheck 5] Buoy)
    as (_ & Hnone & Hunseen & _).
  destruct (seen_iff_accepted [vessel_reading 1; StatusCheck 5] Vessel)
    as (Hseen & _).
  assert (Hacc : accepted Buoy [vessel_reading 1; StatusCheck 5] = []) by reflexivity.
  split; [exact Hacc|]. split; [apply (Hunseen Hacc)|].
  split; [now apply Hnone | exact Hseen].
Defined.

Lemma emitted_serve req w :
  emitted (serve req w) =
  emitted w ++ match broadcast_of req with Some e => [e] | None => [] end.
Proof.
  destruct req as [c m payload t1 t2| | | | |current_time]; unfold serve, broadcast_of;
    try (now rewrite app_nil_r).
  destruct m; [|now rewrite receive_data_options, app_nil_r].
  destruct payload;
    try (rewrite receive_data_not_mapping by reflexivity; now rewrite app_nil_r).
  now rewrite receive_data_mapping.
Qed.

Lemma length_broadcasts reqs :
  length (omap broadcast_of reqs) = length (List.filter is_accepted reqs).
Proof.
  induction reqs as [|req reqs IH]; [reflexivity|].
  change (omap ?f (req :: reqs))
    with (match f req with Some y => y :: omap f reqs | None => omap f reqs end).
  cbn [List.filter].
  assert (Hreq : is_accepted req = match broadcast_of req with
                                   | Some _ => true | None => false end).
  { destruct req as [c m payload t1 t2| | | | |]; try reflexivity.
    destruct m; [|reflexivity]. simpl. now destruct (is_mapping payload). }
  rewrite Hreq. destruct (broadcast_of req); simpl; now rewrite IH.
Qed.

(** X3. After any run, the events sent to the dashboards are, in order,
    one update per accepted record: the event of the record's category
    with the stamped record as its data.  A request that was not accepted
    sends nothing, so as many events were sent as [total_messages]
    counts. *)
Theorem broadcasts_follow_acceptance (reqs : list request) :
  let w := run reqs initial_world in
  emitted w = omap broadcast_of reqs /\
  Z.of_nat (length (emitted w)) = total w.
Proof.
  intros w. subst w.
  assert (Hlog : emitted (run reqs initial_world) = omap broadcast_of reqs).
  { induction reqs as [|req reqs IH] using rev_ind; [reflexivity|].
    now rewrite run_snoc, emitted_serve, IH, omap_snoc. }
  split; [exact Hlog|].
  rewrite Hlog, total_run, length_broadcasts. reflexivity.
Qed.

(** ** The stamp and the reply of a POST *)

Lemma dict_set_keys k v kvs :
  map fst (dict_set k v kvs) =
  if existsb (String.eqb k) (map fst kvs) then map fst kvs else map fst kvs ++ [k].
Proof.
  induction kvs as [|[k' v'] rest IH]; [reflexivity|]. simpl.
  destruct (String.eqb k k'); simpl; [reflexivity|].
  rewrite IH. now destruct (existsb _ _).
Qed.

Lemma existsb_eqb_In k keys : existsb (String.eqb k) keys = true <-> In k keys.
Proof.
  rewrite existsb_exists. split.
  - intros (k' & Hin & Heq%String.eqb_eq). now subst.
  - intros Hin. exists k. split; [exact Hin | apply String.eqb_refl].
Qed.

Lemma dict_set_set k v v' kvs :
  dict_set k v' (dict_set k v kvs) = dict_set k v' kvs.
Proof.
  induction kvs as [|[k0 v0] rest IH]; simpl.
  - now rewrite String.eqb_refl.
  - destruct (String.eqb k k0) eqn:Hk; simpl; rewrite Hk;
      [reflexivity | now rewrite IH].
Qed.

(** X4. Stamping a posted mapping sets [server_timestamp] to the server's
    clock, over whatever the client sent under that key, and leaves every
    other field as it was posted; keys stay unique, and the record has one
    more field only when the client sent no [server_timestamp]. *)
Theorem stamp_overrides_client (kvs : list (string * json)) (clock_stamp : datetime) :
  let data := stamped (JObj kvs) clock_stamp in
  setitem (JObj kvs) "server_timestamp" (JIso clock_stamp) = Return data /\
  getitem data "server_timestamp" = Return (JIso clock_stamp) /\
  (forall k, k <> "server_timestamp" -> get data k = get (JObj kvs) k) /\
  (NoDup (map fst kvs) ->
   NoDup (map fst (dict_set "server_timestamp" (JIso clock_stamp) kvs))) /\
  (forall t, stamped data t = stamped (JObj kvs) t) /\
  length (dict_set "server_timestamp" (JIso clock_stamp) kvs) =
    if existsb (String.eqb "server_timestamp") (map fst kvs)
    then length kvs else S (length kvs).
Proof.
  intros data. subst data. simpl.
  split; [reflexivity|]. split; [now rewrite dict_get_set|]. split; [|split; [|split]].
  - intros k Hk. unfold get, get_default.
    now rewrite dict_get_set_other by congruence.
  - intros Hnodup. rewrite dict_set_keys.
    destruct (existsb _ _) eqn:Hin; [exact Hnodup|].
    apply NoDup_app. split; [exact Hnodup|]. split; [|apply NoDup_singleton].
    intros k Hk ->%list_elem_of_singleton.
    apply list_elem_of_In, existsb_eqb_In in Hk. congruence.
  - intros t. f_equal. apply dict_set_set.
  - rewrite <- (length_map fst), dict_set_keys.
    destruct (existsb _ _); rewrite ?length_app, length_map; simpl; lia.
Qed.

Lemma stamp_overrides_client_witness :
  let forged := [("id", JStr "V1"); ("server_timestamp", JStr "1999-01-01")] in
  NoDup (map fst forged) /\
  stamped (JObj forged) 42 = JObj [("id", JStr "V1"); ("server_timestamp", JIso 42)] /\
  NoDup (map fst (dict_set "server_timestamp" (JIso 42) forged)).
Proof.
  intros forged.
  assert (Hkeys : NoDup (map fst forged)).
  { repeat constructor; rewrite ?list_elem_of_In; simpl; intuition discriminate. }
  destruct (stamp_overrides_client forged 42) as (_ & _ & _ & Hnodup & _).
  split; [exact Hkeys|]. split; [reflexivity | exact (Hnodup Hkeys)].
Defined.

Lemma format_4f_formattable field :
  format_4f (match field with Some v => v | None => JNull end) = Return tt <->
  formattable field = true.
Proof.
  destruct field as [[]|]; simpl; try (split; congruence).
  destruct (_ <? _); split; congruence.
Qed.

Lemma logged_field_stamped c kvs clock_stamp :
  logged_field c (stamped (JObj kvs) clock_stamp) = logged_field c (JObj kvs).
Proof.
  destruct c; simpl; unfold get, get_default;
    now rewrite dict_get_set_other by discriminate.
Qed.

Lemma print_with_writes v : print_with v = Return tt <-> console_writes v = true.
Proof. unfold print_with. destruct (console_writes v); split; congruence. Qed.

Lemma log_line_ok c kvs clock_stamp :
  log_line c (stamped (JObj kvs) clock_stamp) = Return tt <->
  console_writes (logged_field c (JObj kvs)) = true /\
  match c with
  | BaseStation => True
  | Vessel | Buoy =>
      formattable (dict_get "lat" kvs) = true /\
      formattable (dict_get "lon" kvs) = true
  end.
Proof.
  pose proof (format_4f_formattable (dict_get "lat" kvs)) as Hlat.
  pose proof (format_4f_formattable (dict_get "lon" kvs)) as Hlon.
  pose proof (print_with_writes (logged_field c (JObj kvs))) as Hprint.
  unfold log_line. rewrite logged_field_stamped.
  destruct c; [| |tauto].
  all: simpl stamped; unfold get, get_default;
    rewrite !dict_get_set_other by discriminate.
  all: destruct (format_4f match dict_get "lat" kvs with
                           | Some v => v | None => JNull end) as [[]|];
    [|split; [discriminate|]; intros (_ & Hno & _); apply Hlat in Hno;
      discriminate].
  all: destruct (format_4f match dict_get "lon" kvs with
                           | Some v => v | None => JNull end) as [[]|];
    [|split; [discriminate|]; intros (_ & _ & Hno); apply Hlon in Hno;
      discriminate].
  all: tauto.
Qed.

(** X5. With the console in UTF-8, a POST handler answers with the
    success object and the stamp exactly when the payload is a mapping
    whose logged field ([id], [buoy_id], or [messages_relayed] with its
    default 0) is not a string holding a surrogate and, for the vessel and
    the buoy, whose [lat] and [lon] are numbers that [:.4f] can print.
    The base station needs no field at all. *)
Theorem reply_success_iff (c : category) (payload : json)
  (clock_stamp clock_seen : datetime) (w : world) :
  let answer := fst (receive_data c POST payload clock_stamp clock_seen w) in
  answer = Return (Success200 (JIso clock_stamp)) <->
  exists kvs, payload = JObj kvs /\
    console_writes (logged_field c (JObj kvs)) = true /\
    match c with
    | BaseStation => True
    | Vessel | Buoy =>
        formattable (dict_get "lat" kvs) = true /\
        formattable (dict_get "lon" kvs) = true
    end.
Proof.
  intros answer. subst answer.
  destruct payload as [| | | | | | |kvs];
    try (rewrite receive_data_not_mapping by reflexivity; cbn [fst];
         split; [discriminate | now intros (kvs & [=] & _)]).
  rewrite receive_data_mapping. cbn [fst].
  pose proof (log_line_ok c kvs clock_stamp) as Hlog.
  destruct (log_line c _) as [[]|e].
  - split; [intros _; exists kvs; split; [reflexivity | now apply Hlog]|trivial].
  - split; [discriminate|].
    intros (kvs' & [= <-] & Hfields). apply Hlog in Hfields. discriminate.
Qed.

(** A buoy reading is answered with success; with a surrogate in its
    [buoy_id], or with a string for [lat], it is not. *)
Lemma reply_success_iff_witness :
  let surrogate := String (Ascii.ascii_of_N 237)
                     (String (Ascii.ascii_of_N 160)
                        (String (Ascii.ascii_of_N 128) EmptyString)) in
  fst (receive_buoy_data POST
         (JObj [("buoy_id", JStr "B1"); ("lat", JFloat 0); ("lon", JInt 3)])
         5 6 initial_world) = Return (Success200 (JIso 5)) /\
  fst (receive_buoy_data POST
         (JObj [("buoy_id", JStr surrogate); ("lat", JFloat 0); ("lon", JInt 3)])
         5 6 initial_world) <> Return (Success200 (JIso 5)) /\
  fst (receive_basestation_data POST
         (JObj [("messages_relayed", JStr surrogate)])
         5 6 initial_world) = Return (Error400 UnicodeEncodeError) /\
  fst (receive_buoy_data POST (JObj [("lat", JStr "12.9"); ("lon", JInt 3)])
         5 6 initial_world) <> Return (Success200 (JIso 5)).
Proof.
  intros surrogate. split; [|split; [|split]].
  - apply (reply_success_iff Buoy). eexists. split; [reflexivity|]. now split.
  - intros (kvs & [= <-] & Hwrites & _)%(reply_success_iff Buoy). discriminate.
  - reflexivity.
  - intros (kvs & [= <-] & _ & Hlat & _)%(reply_success_iff Buoy). discriminate.
Defined.

(** ** Reads of the history over a run *)

Lemma last_n_last_n {A} n m (l : list A) :
  last_n n (last_n m l) = last_n (Nat.min n m) l.
Proof.
  unfold last_n. rewrite length_drop, drop_drop. f_equal. lia.
Qed.

(** X6. After any run, a history read with a positive limit answers with
    the last [min(limit, 1000)] accepted records of the category, oldest
    first; without a limit these are the last 100.  The answer is always
    an end piece of the stored history. *)
Theorem history_read_window (reqs : list request) (c : category) (arg : option Z) :
  0 < limit_arg arg ->
  let st := globals (run reqs initial_world) in
  get_history c arg st =
    last_n (Nat.min (Z.to_nat (limit_arg arg)) 1000) (accepted c reqs) /\
  length (get_history c arg st) =
    Nat.min (Z.to_nat (limit_arg arg)) (Nat.min 1000 (length (accepted c reqs))) /\
  suffix (get_history c arg st) (accepted c reqs).
Proof.
  intros Hpos st. subst st.
  assert (Hget : get_history c arg (globals (run reqs initial_world)) =
                 last_n (Nat.min (Z.to_nat (limit_arg arg)) 1000) (accepted c reqs)).
  { unfold get_history. rewrite slice_from_negative by assumption.
    rewrite history_run. apply last_n_last_n. }
  rewrite Hget. split; [reflexivity|]. split.
  - rewrite length_last_n. lia.
  - apply suffix_drop.
Qed.

Lemma history_read_window_witness :
  let st := globals (run (vessel_readings 101) initial_world) in
  0 < limit_arg None /\
  length (get_history Vessel None st) = 100%nat /\
  suffix (get_history Vessel None st) (accepted Vessel (vessel_readings 101)).
Proof.
  intros st.
  assert (Hpos : 0 < limit_arg None) by (simpl; lia).
  destruct (history_read_window (vessel_readings 101) Vessel None Hpos)
    as (_ & Hlen & Hsuffix).
  split; [exact Hpos|]. split; [|exact Hsuffix].
  fold st in Hlen. rewrite Hlen. vm_compute. reflexivity.
Defined.

(** ** How status checks and ingests compose *)

Lemma stale_mono c t t' ss :
  t <= t' -> stale c t ss = true -> stale c t' ss = true.
Proof.
  unfold stale, silent_for_more_than_30s. intros Hle.
  destruct (last_seen c ss) as [seen|]; [|trivial].
  intros H%Z.ltb_lt. apply Z.ltb_lt. lia.
Qed.

Lemma stale_check_device_status c t t' st :
  stale c t' (system_status (check_device_status t st)) =
  stale c t' (system_status st).
Proof. unfold stale. now rewrite last_seen_check_device_status. Qed.

(** X7. A status check subsumes every earlier one: checking at [t] and at
    a later [t'], in either order, leaves the store that the check at [t']
    alone leaves.  An online flag the check took away does not come back
    by checking again. *)
Theorem later_check_subsumes (t t' : datetime) (st : store) :
  t <= t' ->
  check_device_status t' (check_device_status t st) = check_device_status t' st /\
  check_device_status t (check_device_status t' st) = check_device_status t' st.
Proof.
  intros Hle. split; apply store_ext; intros;
    rewrite ?history_check_device_status, ?current_check_device_status,
      ?last_seen_check_device_status, ?total_check_device_status; trivial.
  all: rewrite !online_check_device_status, !stale_check_device_status.
  all: pose proof (stale_mono c t t' (system_status st) Hle) as Hmono.
  all: destruct (online c (system_status st)), (stale c t (system_status st)),
         (stale c t' (system_status st)); simpl; trivial;
       specialize (Hmono eq_refl); discriminate.
Qed.

Lemma later_check_subsumes_witness :
  let st := globals (run mixed_run initial_world) in
  40000000 <= 90000000 /\
  check_device_status 90000000 (check_device_status 40000000 st) =
  check_device_status 90000000 st.
Proof.
  intros st.
  assert (Hle : 40000000 <= 90000000) by lia.
  split; [exact Hle|]. exact (proj1 (later_check_subsumes _ _ st Hle)).
Defined.

Lemma locked_update_comm c c' data data' now now' st :
  c <> c' ->
  locked_update c data now (locked_update c' data' now' st) =
  locked_update c' data' now' (locked_update c data now st).
Proof.
  intros Hne. apply store_ext; intros;
    rewrite ?history_locked_update, ?current_locked_update,
      ?online_locked_update, ?last_seen_locked_update, ?total_locked_update;
    try lia.
  all: repeat case_bool_decide; congruence.
Qed.

(** X8. Ingests into two different categories commute: whatever the two
    requests are, serving them in one order or the other leaves the same
    globals.  Only the order of the two events on the channel differs. *)
Theorem ingests_commute (c c' : category) (m m' : http_method) (p p' : json)
  (t1 t2 t1' t2' : datetime) (w : world) :
  c <> c' ->
  globals (run [PostData c m p t1 t2; PostData c' m' p' t1' t2'] w) =
  globals (run [PostData c' m' p' t1' t2'; PostData c m p t1 t2] w).
Proof.
  intros Hne. unfold run; simpl fold_left. unfold serve.
  rewrite !globals_receive_data.
  destruct m, m'; trivial.
  destruct (is_mapping p), (is_mapping p'); trivial.
  symmetry. now apply locked_update_comm.
Qed.

Lemma ingests_commute_witness :
  Vessel <> Buoy /\
  globals (run [vessel_reading 1; PostData Buoy POST (JObj []) 3 4] initial_world) =
  globals (run [PostData Buoy POST (JObj []) 3 4; vessel_reading 1] initial_world).
Proof.
  assert (Hne : Vessel <> Buoy) by discriminate.
  split; [exact Hne|]. now apply ingests_commute.
Defined.

(** X9. After an accepted POST whose second clock reading is [t], a status
    check at [now] leaves the category online exactly when [now] is at
    most 30 seconds after [t], whatever was known of the category before;
    the other categories are judged as if the POST had not happened. *)
Theorem check_after_ingest (c : category) (kvs : list (string * json))
  (clock_stamp clock_seen now : datetime) (w : world) :
  let st := globals (snd (receive_data c POST (JObj kvs) clock_stamp clock_seen w)) in
  online c (system_status (check_device_status now st)) =
    negb (30 * 10 ^ 6 <? now - clock_seen) /\
  (online c (system_status (check_device_status now st)) = true <->
   now - clock_seen <= 30 * 10 ^ 6) /\
  forall c', c <> c' ->
    online c' (system_status (check_device_status now st)) =
    online c' (system_status (check_device_status now (globals w))).
Proof.
  intros st. subst st. rewrite receive_data_mapping. cbn [snd globals].
  assert (Hc : online c (system_status (check_device_status now
                 (locked_update c (stamped (JObj kvs) clock_stamp) clock_seen (globals w)))) =
               negb (30 * 10 ^ 6 <? now - clock_seen)).
  { rewrite online_check_device_status. unfold stale.
    rewrite online_locked_update, last_seen_locked_update.
    now rewrite !bool_decide_eq_true_2. }
  split; [exact Hc|]. split.
  - rewrite Hc. destruct (Z.ltb_spec (30 * 10 ^ 6) (now - clock_seen)); simpl;
      split; try lia; congruence.
  - intros c' Hne. rewrite !online_check_device_status. unfold stale.
    rewrite online_locked_update, last_seen_locked_update.
    now rewrite !bool_decide_eq_false_2.
Qed.

Lemma check_after_ingest_witness :
  let st := globals (snd (receive_vessel_data POST (JObj []) 5 6 initial_world)) in
  Vessel <> Buoy /\
  online Vessel (system_status (check_device_status 30000006 st)) = true /\
  online Vessel (system_status (check_device_status 30000007 st)) = false /\
  online Buoy (system_status (check_device_status 30000007 st)) =
  online Buoy (system_status (check_device_status 30000007 initial_store)).
Proof.
  intros st.
  assert (Hne : Vessel <> Buoy) by discriminate.
  destruct (check_after_ingest Vessel [] 5 6 30000006 initial_world) as (_ & Hon & _).
  destruct (check_after_ingest Vessel [] 5 6 30000007 initial_world)
    as (Hoff & _ & Hother).
  split; [exact Hne|]. split; [apply Hon; lia|].
  split; [exact Hoff | exact (Hother Buoy Hne)].
Defined.

(** ** The lock: exclusion, progress, serial runs *)

Lemma interleave_app s1 s2 cfg :
  interleave (s1 ++ s2) cfg = interleave s2 (interleave s1 cfg).
Proof. unfold interleave. apply fold_left_app. Qed.

Lemma lock_invariant_reached clients schedule :
  lock_invariant clients (interleave schedule (initial_config clients)).
Proof. apply lock_invariant_interleave, lock_invariant_initial. Qed.

Lemma outside_head clients ins rest :
  outside clients (ins :: rest) ->
  ~ in_critical ins /\ (ins = Acquire \/ exists event data, ins = Emit event data).
Proof. intros H. inversion H; subst; simpl; (split; [tauto | eauto]). Qed.

Lemma inside_head clients st code :
  inside clients st code ->
  exists ins rest, code = ins :: rest /\ in_critical ins.
Proof.
  intros [ws k Hws _ _|r k Hr _ _].
  - destruct ws as [|w ws]; simpl.
    + exists Release, k. now split.
    + apply Forall_cons in Hws as [Hw _]. destruct w; try contradiction.
      eexists _, _. now split.
  - destruct r; try contradiction; eexists _, _; now split.
Qed.

(** X10. In every interleaving at most one thread stands at a statement
    of a [with data_lock:] block (a write of a global, the serialisation
    of a read, or the release), and that thread is the one holding the
    lock. *)
Theorem mutual_exclusion (clients : list client) (schedule : list nat)
  (i j : nat) (ins_i ins_j : instr) (rest_i rest_j : list instr) :
  let cfg := interleave schedule (initial_config clients) in
  pool cfg !! i = Some (ins_i :: rest_i) ->
  pool cfg !! j = Some (ins_j :: rest_j) ->
  in_critical ins_i -> in_critical ins_j ->
  i = j /\ holder cfg = Some i.
Proof.
  intros cfg Hi Hj Hci Hcj.
  destruct (lock_invariant_reached clients schedule) as [_ Hlock]. fold cfg in Hlock.
  assert (Hholder : forall k ins rest,
            pool cfg !! k = Some (ins :: rest) -> in_critical ins ->
            holder cfg = Some k).
  { intros k ins rest Hk Hc. destruct (holder cfg) as [h|].
    - destruct Hlock as [_ Hothers].
      destruct (decide (k = h)) as [->|Hne]; [reflexivity|].
      now apply Hothers, outside_head in Hk.
    - destruct Hlock as [_ Hall].
      apply (Forall_lookup_1 _ _ _ _ Hall), outside_head in Hk. tauto. }
  pose proof (Hholder _ _ _ Hi Hci) as Hhi.
  pose proof (Hholder _ _ _ Hj Hcj) as Hhj.
  split; [congruence | exact Hhi].
Qed.

Lemma mutual_exclusion_witness :
  let cfg := interleave [0; 0; 0; 2; 1]%nat (initial_config vessel_and_readers) in
  (exists ins rest, pool cfg !! 0%nat = Some (ins :: rest) /\ in_critical ins) /\
  holder cfg = Some 0%nat.
Proof.
  intros cfg. split; [do 2 eexists; split; [reflexivity | exact I]|].
  eapply (mutual_exclusion vessel_and_readers [0; 0; 0; 2; 1]%nat 0 0);
    try reflexivity; exact I.
Defined.

Lemma finished_or_busy (threads : list (list instr)) :
  Forall (fun code => code = []) threads \/
  exists i ins rest, threads !! i = Some (ins :: rest).
Proof.
  induction threads as [|code threads [IH|(i & ins & rest & Hi)]].
  - left. constructor.
  - destruct code as [|ins rest]; [left; now constructor|].
    right. now exists 0%nat, ins, rest.
  - right. now exists (S i), ins, rest.
Qed.

Lemma progress clients cfg :
  lock_invariant clients cfg ->
  finished cfg \/ exists i cfg', step_thread i cfg = Some cfg'.
Proof.
  intros [_ Hlock]. unfold step_thread.
  destruct (holder cfg) as [h|] eqn:Hh.
  - right. destruct Hlock as [(code & Hcode & Hin) _].
    apply inside_head in Hin as (ins & rest & -> & Hc).
    exists h. rewrite Hcode. destruct ins; try contradiction; eauto.
  - destruct (finished_or_busy (pool cfg)) as [Hdone|(i & ins & rest & Hi)];
      [now left|right].
    destruct Hlock as [_ Hall].
    pose proof (Forall_lookup_1 _ _ _ _ Hall Hi) as Hout.
    apply outside_head in Hout as [_ [->|(event & data & ->)]];
      exists i; rewrite Hi, ?Hh; eauto.
Qed.

Lemma remaining_insert (threads : list (list instr)) i ins rest :
  threads !! i = Some (ins :: rest) ->
  S (remaining (<[i := rest]> threads)) = remaining threads.
Proof.
  unfold remaining. revert i.
  induction threads as [|code threads IH]; intros [|i] Hi; try discriminate; simpl in *.
  - injection Hi as ->. simpl. lia.
  - specialize (IH _ Hi). lia.
Qed.

Lemma step_thread_remaining i cfg cfg' :
  step_thread i cfg = Some cfg' ->
  S (remaining (pool cfg')) = remaining (pool cfg).
Proof.
  unfold step_thread.
  destruct (pool cfg !! i) as [[|ins rest]|] eqn:Hi; try discriminate.
  intros Hstep.
  assert (Hpool : pool cfg' = <[i := rest]> (pool cfg)).
  { destruct ins, (holder cfg); try discriminate; now injection Hstep as <-. }
  rewrite Hpool. now apply (remaining_insert _ _ ins).
Qed.

Lemma finished_holder clients cfg :
  lock_invariant clients cfg -> finished cfg -> holder cfg = None.
Proof.
  intros [_ Hlock] Hdone. destruct (holder cfg) as [h|]; [|reflexivity].
  destruct Hlock as [(code & Hcode & Hin) _].
  apply inside_head in Hin as (ins & rest & -> & _).
  now apply (Forall_lookup_1 _ _ _ _ Hdone) in Hcode.
Qed.

Lemma can_finish clients n cfg :
  (remaining (pool cfg) <= n)%nat -> lock_invariant clients cfg ->
  exists schedule, finished (interleave schedule cfg).
Proof.
  revert cfg. induction n as [|n IH]; intros cfg Hn Hinv.
  - exists []. destruct (progress _ _ Hinv) as [Hdone|(i & cfg' & Hstep)];
      [exact Hdone|].
    apply step_thread_remaining in Hstep. lia.
  - destruct (progress _ _ Hinv) as [Hdone|(i & cfg' & Hstep)];
      [now exists []|].
    destruct (IH cfg') as [schedule Hdone].
    + apply step_thread_remaining in Hstep. lia.
    + exact (lock_invariant_step _ _ _ _ Hinv Hstep).
    + exists (i :: schedule).
      change (interleave (i :: schedule) cfg) with (interleave schedule (turn cfg i)).
      unfold turn. now rewrite Hstep.
Qed.

(** X11. The handlers never deadlock.  In every interleaving either all
    threads have run to their end or some thread can make its next step,
    and the threads can always be scheduled on so that all of them finish;
    when they have, the lock is free. *)
Theorem never_stuck (clients : list client) (schedule : list nat) :
  let cfg := interleave schedule (initial_config clients) in
  (finished cfg \/ exists i cfg', step_thread i cfg = Some cfg') /\
  (finished cfg -> holder cfg = None) /\
  exists more,
    finished (interleave (schedule ++ more) (initial_config clients)) /\
    holder (interleave (schedule ++ more) (initial_config clients)) = None.
Proof.
  intros cfg.
  pose proof (lock_invariant_reached clients schedule) as Hinv. fold cfg in Hinv.
  split; [now apply (progress clients)|].
  split; [now apply (finished_holder clients)|].
  destruct (can_finish clients _ cfg (le_n _) Hinv) as [more Hdone].
  exists more. rewrite interleave_app. fold cfg. split; [exact Hdone|].
  apply (finished_holder clients); [|exact Hdone].
  now apply lock_invariant_interleave.
Qed.

Lemma never_stuck_witness :
  let cfg := interleave [0; 0; 0]%nat (initial_config vessel_and_readers) in
  step_thread 1 cfg = None /\ step_thread 2 cfg = None /\
  exists i cfg', step_thread i cfg = Some cfg'.
Proof.
  intros cfg. split; [reflexivity|]. split; [reflexivity|].
  destruct (never_stuck vessel_and_readers [0; 0; 0]%nat)
    as ([Hdone|Hstep] & _ & _); [|exact Hstep].
  apply (Forall_lookup_1 _ _ 0%nat
           [Write (mark_online Vessel); Write (stamp_last_seen Vessel 6);
            Write count_message; Release;
            Emit "vessel_update" (JObj [("id", JStr "V1"); ("server_timestamp", JIso 5)])])
    in Hdone; [discriminate | reflexivity].
Defined.

Lemma config_eta cfg :
  cfg = {| shared := shared cfg; holder := holder cfg;
           pool := pool cfg; observed := observed cfg |}.
Proof. now destruct cfg. Qed.

Lemma run_code_app a b w obs :
  run_code (a ++ b) w obs =
  run_code b (fst (run_code a w obs)) (snd (run_code a w obs)).
Proof.
  revert w obs. induction a as [|ins a IH]; intros w obs; [reflexivity|].
  destruct ins; simpl; apply IH.
Qed.

(** The holder of the lock runs the rest of its block and releases. *)
Lemma run_body body i k cfg :
  Forall (fun ins => is_write ins \/ is_read ins) body ->
  holder cfg = Some i ->
  pool cfg !! i = Some (body ++ Release :: k) ->
  interleave (replicate (S (length body)) i) cfg =
  {| shared := fst (run_code body (shared cfg) (observed cfg));
     holder := None;
     pool := <[i := k]> (pool cfg);
     observed := snd (run_code body (shared cfg) (observed cfg)) |}.
Proof.
  revert cfg. induction body as [|ins body IH]; intros cfg Hbody Hh Hi.
  - simpl. unfold turn, step_thread. now rewrite Hi, Hh.
  - apply Forall_cons in Hbody as [Hins Hbody].
    assert (Hlen : (i < length (pool cfg))%nat) by now apply lookup_lt_Some in Hi.
    change (interleave (replicate (S (length (ins :: body))) i) cfg)
      with (interleave (replicate (S (length body)) i) (turn cfg i)).
    unfold turn, step_thread. rewrite Hi. cbn [app].
    destruct ins; simpl in Hins; try tauto.
    all: rewrite IH; cbn [shared holder pool observed]; trivial;
      [now rewrite list_insert_insert_eq | now apply list_lookup_insert_eq].
Qed.

(** A thread outside the lock runs to its end when it is left alone. *)
Lemma run_alone clients code :
  outside clients code ->
  forall i cfg,
    holder cfg = None -> pool cfg !! i = Some code ->
    interleave (replicate (length code) i) cfg =
    {| shared := fst (run_code code (shared cfg) (observed cfg));
       holder := None;
       pool := <[i := []]> (pool cfg);
       observed := snd (run_code code (shared cfg) (observed cfg)) |}.
Proof.
  assert (Hblock : forall body k,
    Forall (fun ins => is_write ins \/ is_read ins) body ->
    (forall i cfg,
       holder cfg = None -> pool cfg !! i = Some k ->
       interleave (replicate (length k) i) cfg =
       {| shared := fst (run_code k (shared cfg) (observed cfg));
          holder := None;
          pool := <[i := []]> (pool cfg);
          observed := snd (run_code k (shared cfg) (observed cfg)) |}) ->
    forall i cfg,
      holder cfg = None -> pool cfg !! i = Some (Acquire :: body ++ Release :: k) ->
      interleave (replicate (length (Acquire :: body ++ Release :: k)) i) cfg =
      {| shared := fst (run_code (Acquire :: body ++ Release :: k)
                          (shared cfg) (observed cfg));
         holder := None;
         pool := <[i := []]> (pool cfg);
         observed := snd (run_code (Acquire :: body ++ Release :: k)
                            (shared cfg) (observed cfg)) |}).
  { intros body k Hbody IH i cfg Hh Hi.
    assert (Hlen : (i < length (pool cfg))%nat) by now apply lookup_lt_Some in Hi.
    cbn [length]. rewrite length_app. cbn [length].
    replace (S (length body + S (length k)))
      with (1 + (S (length body) + length k))%nat by lia.
    rewrite !replicate_add, !interleave_app.
    change (interleave (replicate 1 i) cfg) with (turn cfg i).
    unfold turn, step_thread. rewrite Hi, Hh.
    rewrite (run_body body i k); cbn [shared holder pool observed]; trivial;
      [|now apply list_lookup_insert_eq].
    rewrite IH; cbn [shared holder pool observed]; trivial.
    - rewrite !list_insert_insert_eq.
      cbn [run_code]. now rewrite run_code_app.
    - rewrite list_insert_insert_eq. now apply list_lookup_insert_eq. }
  induction 1 as [|event data k Hk IH|ws k Hws _ Hk IH|r k Hr Hk IH];
    intros i cfg Hh Hi.
  - simpl. rewrite (list_insert_id _ _ _ Hi), <- Hh. apply config_eta.
  - assert (Hlen : (i < length (pool cfg))%nat) by now apply lookup_lt_Some in Hi.
    change (interleave (replicate (length (Emit event data :: k)) i) cfg)
      with (interleave (replicate (length k) i) (turn cfg i)).
    unfold turn, step_thread. rewrite Hi.
    rewrite IH; cbn [shared holder pool observed]; trivial;
      [now rewrite list_insert_insert_eq | now apply list_lookup_insert_eq].
  - apply Hblock; trivial.
    eapply Forall_impl; [exact Hws | intros ins Hins; now left].
  - apply (Hblock [r] k); trivial.
    apply Forall_cons. split; [now right | constructor].
Qed.

Lemma run_app reqs reqs' w : run (reqs ++ reqs') w = run reqs' (run reqs w).
Proof. unfold run. apply fold_left_app. Qed.

(** Left alone, the thread of a client does what serving its requests one
    after the other does. *)
Lemma run_code_thread_of cl w obs :
  fst (run_code (thread_of cl) w obs) = run (requests_of cl) w.
Proof.
  destruct cl as [c payload t1 t2| | |times]; cbn [thread_of requests_of];
    try reflexivity.
  - unfold run; cbn [fold_left]. unfold serve.
    destruct payload; try (now rewrite receive_data_not_mapping).
    now rewrite receive_data_mapping.
  - revert w. induction times as [|t times IH]; intros w; [reflexivity|].
    change (checker_thread (t :: times)) with (check_round t ++ checker_thread times).
    rewrite run_code_app. cbn [map]. unfold run; cbn [fold_left].
    rewrite <- IH. reflexivity.
Qed.

Lemma serial_from_run clients cls :
  (forall cl, In cl cls -> In cl clients) ->
  forall i cfg,
    holder cfg = None ->
    (forall k cl, cls !! k = Some cl -> pool cfg !! (i + k)%nat = Some (thread_of cl)) ->
    let cfg' := interleave (serial_from i cls) cfg in
    shared cfg' = run (concat (map requests_of cls)) (shared cfg) /\
    holder cfg' = None /\
    length (pool cfg') = length (pool cfg) /\
    (forall j, (i <= j < i + length cls)%nat -> pool cfg' !! j = Some []) /\
    (forall j, (j < i)%nat -> pool cfg' !! j = pool cfg !! j).
Proof.
  induction cls as [|cl cls IH]; intros Hin i cfg Hh Hpool cfg'.
  - subst cfg'. simpl. repeat split; trivial. intros j Hj. lia.
  - subst cfg'. cbn [serial_from]. rewrite interleave_app.
    assert (Hi : pool cfg !! i = Some (thread_of cl)).
    { specialize (Hpool 0%nat cl eq_refl). now rewrite Nat.add_0_r in Hpool. }
    assert (Hlen : (i < length (pool cfg))%nat) by now apply lookup_lt_Some in Hi.
    rewrite (run_alone clients (thread_of cl)); trivial;
      [|apply outside_thread_of, Hin; now left].
    match goal with |- context [interleave _ ?c] => set (cfg1 := c) end.
    destruct (IH (fun cl' H => Hin cl' (or_intror H)) (S i) cfg1 eq_refl)
      as (Hshared & Hholder & Hlength & Hdone & Hbefore).
    { intros k cl' Hk. subst cfg1. cbn [pool].
      rewrite list_lookup_insert_ne by lia.
      replace (S i + k)%nat with (i + S k)%nat by lia. now apply Hpool. }
    split; [|split; [exact Hholder|split; [|split]]].
    + rewrite Hshared. subst cfg1. cbn [shared map concat].
      now rewrite run_code_thread_of, run_app.
    + rewrite Hlength. subst cfg1. cbn [pool]. apply length_insert.
    + intros j Hj. cbn [length] in Hj.
      destruct (decide (j = i)) as [->|Hne].
      * rewrite Hbefore by lia. subst cfg1. cbn [pool].
        now apply list_lookup_insert_eq.
      * apply Hdone. lia.
    + intros j Hj. rewrite Hbefore by lia. subst cfg1. cbn [pool].
      apply list_lookup_insert_ne. lia.
Qed.

(** X12. Run one after the other, each to its end, the threads of the
    clients do exactly what the handlers do on the clients' requests
    served in that order: the globals and the emitted events are those of
    the sequential run, every thread has finished and the lock is free. *)
Theorem serial_is_sequential (clients : list client) :
  let cfg := interleave (serial clients) (initial_config clients) in
  shared cfg = run (concat (map requests_of clients)) initial_world /\
  finished cfg /\
  holder cfg = None.
Proof.
  intros cfg.
  destruct (serial_from_run clients clients (fun _ H => H) 0%nat
              (initial_config clients) eq_refl)
    as (Hshared & Hholder & Hlength & Hdone & _).
  { intros k cl Hk. simpl. change (map thread_of clients) with (thread_of <$> clients).
    now rewrite list_lookup_fmap, Hk. }
  fold (serial clients) in Hshared, Hholder, Hlength, Hdone. fold cfg in Hshared, Hholder, Hlength, Hdone.
  split; [exact Hshared|]. split; [|exact Hholder].
  apply Forall_lookup. intros j code Hj.
  assert (Hlt : (j < length clients)%nat).
  { apply lookup_lt_Some in Hj. rewrite Hlength in Hj. simpl in Hj.
    now rewrite length_map in Hj. }
  rewrite Hdone in Hj by lia. congruence.
Qed.

Lemma serial_is_sequential_witness :
  let clients := [ClientPost Vessel (JObj []) 5 6; ClientAllLatest;
                  ClientChecker [40000000; 70000000];
                  ClientPost Buoy (JStr "x") 7 8] in
  serial clients = [0; 0; 0; 0; 0; 0; 0; 0; 1; 1; 1;
                    2; 2; 2; 2; 2; 2; 2; 2; 2; 2]%nat /\
  total (shared (interleave (serial clients) (initial_config clients))) = 1 /\
  online Vessel (system_status (globals
    (shared (interleave (serial clients) (initial_config clients))))) = false.
Proof.
  intros clients. split; [reflexivity|].
  destruct (serial_is_sequential clients) as (Hshared & _).
  rewrite Hshared. split; reflexivity.
Defined.

(** ** What the histories hold *)

Lemma accepted_by_stamped c req data :
  accepted_by c req = Some data ->
  exists kvs clock_stamp clock_seen,
    req = PostData c POST (JObj kvs) clock_stamp clock_seen /\
    data = stamped (JObj kvs) clock_stamp.
Proof.
  destruct req as [c' m payload t1 t2| | | | |]; simpl; try discriminate.
  destruct m; [|discriminate].
  destruct payload; simpl; try discriminate.
  case_bool_decide as Hc; [|discriminate]. subst c'.
  intros [= <-]. eauto.
Qed.

(** X13. After any run, every record in the history of a category is a
    payload that was posted to that very category as a mapping, with the
    server's stamp under [server_timestamp]; nothing else gets stored. *)
Theorem history_holds_stamped_posts (reqs : list request) (c : category)
  (data : json) :
  In data (history c (globals (run reqs initial_world))) ->
  exists kvs clock_stamp clock_seen,
    In (PostData c POST (JObj kvs) clock_stamp clock_seen) reqs /\
    data = stamped (JObj kvs) clock_stamp /\
    getitem data "server_timestamp" = Return (JIso clock_stamp).
Proof.
  rewrite history_run. unfold last_n, accepted.
  generalize (length (omap (accepted_by c) reqs) - maxlen)%nat as n.
  intros n Hin.
  assert (Hall : In data (omap (accepted_by c) reqs)).
  { rewrite <- (take_drop n (omap (accepted_by c) reqs)).
    apply in_or_app. now right. }
  apply list_elem_of_In, list_elem_of_omap in Hall as (req & Hreq & Hacc).
  apply accepted_by_stamped in Hacc as (kvs & t1 & t2 & -> & ->).
  exists kvs, t1, t2. split; [now apply list_elem_of_In|]. split; [reflexivity|].
  simpl. now rewrite dict_get_set.
Qed.

Lemma history_holds_stamped_posts_witness :
  let data := JObj [("id", JInt 1); ("lat", JInt 12); ("lon", JInt 77);
                    ("server_timestamp", JIso 1)] in
  In data (history Vessel (globals (run mixed_run initial_world))) /\
  exists kvs clock_stamp clock_seen,
    In (PostData Vessel POST (JObj kvs) clock_stamp clock_seen) mixed_run /\
    data = stamped (JObj kvs) clock_stamp /\
    getitem data "server_timestamp" = Return (JIso clock_stamp).
Proof.
  intros data.
  assert (Hin : In data (history Vessel (globals (run mixed_run initial_world))))
    by (left; reflexivity).
  split; [exact Hin|].
  exact (history_holds_stamped_posts mixed_run Vessel data Hin).
Defined.

Lemma accepted_by_one_category req :
  (if is_accepted req then 1 else 0)%nat =
  (length (omap (accepted_by Vessel) [req]) +
   length (omap (accepted_by Buoy) [req]) +
   length (omap (accepted_by BaseStation) [req]))%nat.
Proof.
  destruct req as [c m payload t1 t2| | | | |]; try reflexivity.
  destruct m; [|reflexivity].
  simpl. destruct (is_mapping payload); [|reflexivity].
  now destruct c.
Qed.

Lemma accepted_cons c req reqs :
  length (accepted c (req :: reqs)) =
  (length (omap (accepted_by c) [req]) + length (accepted c reqs))%nat.
Proof.
  unfold accepted.
  change (req :: reqs) with ([req] ++ reqs). now rewrite omap_app, length_app.
Qed.

(** X14. After any run, [total_messages] is the sum over the three
    categories of the records accepted for each, so no history ever holds
    more records than [total_messages] counts. *)
Theorem total_messages_by_category (reqs : list request) :
  let w := run reqs initial_world in
  total w = Z.of_nat (length (accepted Vessel reqs) + length (accepted Buoy reqs) +
                      length (accepted BaseStation reqs)) /\
  forall c, Z.of_nat (length (history c (globals w))) <= total w.
Proof.
  intros w. subst w.
  assert (Hsum : length (List.filter is_accepted reqs) =
                 (length (accepted Vessel reqs) + length (accepted Buoy reqs) +
                  length (accepted BaseStation reqs))%nat).
  { induction reqs as [|req reqs IH]; [reflexivity|].
    rewrite !accepted_cons. cbn [List.filter].
    pose proof (accepted_by_one_category req) as Hreq.
    destruct (is_accepted req); cbn [length]; lia. }
  rewrite total_run. change (total initial_world) with 0. rewrite Hsum.
  split; [lia|].
  intros c. rewrite history_run, length_last_n. destruct c; lia.
Qed.
